(** * watchdog.py: the camera capture loop, the shared output frame and the
      gradio query function

    A shallow embedding of [software/watchdog.py].  The program has one
    module-level lock and one module-level variable [output_frame]; a
    daemon thread runs [video_processing], the web layer calls
    [generate_image], and the [__main__] block supervises start-up.

    The embedding has two layers that share the same state:
    - a sequential layer, in which each function of the source is a
      computation in a small state-and-exception monad;
    - an interleaving layer, in which the statements of the two functions
      are the atomic steps of a transition system over the same state. *)

From Stdlib Require Import ZArith Lia.
From stdpp Require Import base list strings.

Local Open Scope Z_scope.
Local Open Scope string_scope.
Local Open Scope list_scope.

(** ** Constants of the module (lines 15-28) *)

Definition OPENCV_FRAME_HORIZONTAL_PIXELS : Z := 1920.
Definition OPENCV_FRAME_VERTICAL_PIXELS : Z := 1080.
Definition VIDEO_FRAME_HORIZONTAL_PIXELS : Z := 640.
Definition VIDEO_FRAME_VERTICAL_PIXELS : Z := 480.
Definition FRAME_RATE : Z := 30.

(** ** Objects *)

(** A NumPy array is an object on the heap; only its pixel data matters
    here.  Arrays are handled by reference. *)
Definition ndarray : Type := list Z.
Abbreviation loc := nat.

(** [gr.Image(value=..., label=...)]: the component keeps the value it
    was given, which is whatever [output_frame] was bound to. *)
Record Image : Type := gr_Image { value : option loc; label : string }.

(** Exceptions: [KeyboardInterrupt] is the only one the source names;
    every other one is an [Error] carrying its class name. *)
Inductive exn : Type :=
| KeyboardInterrupt
| Error (name : string).

(** Calls made on the external collaborators, in program order. *)
Inductive call : Type :=
| Picamera2
| create_video_configuration (main lores limits : Z * Z)
| align_configuration
| configure
| start
| createBackgroundSubtractorMOG2
| capture_array
| background_subtract_apply (frame : loc)
| stop
| Thread_start
| sleep (seconds : Z)
| is_alive
| launch (server_name : string).

(** ** Program state *)

Record State : Type := mkState {
  heap : list ndarray;          (* the arrays allocated so far *)
  output_frame : option loc;    (* line 32, [None] at start *)
  lock : bool;                  (* line 31, [true] while held *)
  stdout : list string;         (* what [print] wrote, oldest first *)
  calls : list call             (* external calls, oldest first *)
}.

Definition initial_state : State :=
  {| heap := []; output_frame := None; lock := false;
     stdout := []; calls := [] |}.

Definition set_heap (h : list ndarray) (s : State) : State :=
  {| heap := h; output_frame := output_frame s; lock := lock s;
     stdout := stdout s; calls := calls s |}.
Definition set_output_frame (v : option loc) (s : State) : State :=
  {| heap := heap s; output_frame := v; lock := lock s;
     stdout := stdout s; calls := calls s |}.
Definition set_lock (b : bool) (s : State) : State :=
  {| heap := heap s; output_frame := output_frame s; lock := b;
     stdout := stdout s; calls := calls s |}.
Definition add_stdout (msg : string) (s : State) : State :=
  {| heap := heap s; output_frame := output_frame s; lock := lock s;
     stdout := stdout s ++ [msg]; calls := calls s |}.
Definition add_call (c : call) (s : State) : State :=
  {| heap := heap s; output_frame := output_frame s; lock := lock s;
     stdout := stdout s; calls := calls s ++ [c] |}.

(** The content of the slot: the pixels of the array [output_frame]
    refers to, if any. *)
Definition slot_content (s : State) : option ndarray :=
  match output_frame s with
  | Some l => heap s !! l
  | None => None
  end.

(** ** The monad of the sequential layer

    A computation transforms the state and either returns, raises, or is
    [Pending]: it has not returned within the observed run, because it
    waits for the lock or for the next answer of the camera. *)

Inductive outcome (A : Type) : Type :=
| Ok (a : A)
| Raise (e : exn)
| Pending.
Arguments Ok {A} a.
Arguments Raise {A} e.
Arguments Pending {A}.

Definition M (A : Type) : Type := State -> State * outcome A.

Definition ret {A} (a : A) : M A := fun s => (s, Ok a).

Definition bind {A B} (m : M A) (k : A -> M B) : M B := fun s =>
  match m s with
  | (s', Ok a) => k a s'
  | (s', Raise e) => (s', Raise e)
  | (s', Pending) => (s', Pending)
  end.

Definition raise {A} (e : exn) : M A := fun s => (s, Raise e).

Notation "x <- m ;; k" := (bind m (fun x => k))
  (at level 90, m at next level, right associativity).
Notation "m ;;; k" := (bind m (fun _ => k))
  (at level 90, right associativity).

Definition print (msg : string) : M unit := fun s => (add_stdout msg s, Ok tt).

Definition read_output_frame : M (option loc) := fun s => (s, Ok (output_frame s)).

Definition write_output_frame (v : option loc) : M unit :=
  fun s => (set_output_frame v s, Ok tt).

(** Allocation of a new array: its reference is the next free index. *)
Definition alloc (a : ndarray) : M loc :=
  fun s => (set_heap (heap s ++ [a]) s, Ok (length (heap s))).

(** [frame.copy()]: a new array with the pixels of [frame]. *)
Definition ndarray_copy (frame : loc) : M loc := fun s =>
  match heap s !! frame with
  | Some a => alloc a s
  | None => (s, Raise (Error "AttributeError"))
  end.

(** [with lock: body].  Acquiring a held lock waits; the lock is released
    however the body ends. *)
Definition with_lock {A} (body : M A) : M A := fun s =>
  if lock s then (s, Pending)
  else let '(s', r) := body (set_lock true s) in (set_lock false s', r).

(** [try: body  except KeyboardInterrupt: handler]. *)
Definition try_except_KeyboardInterrupt {A} (body handler : M A) : M A := fun s =>
  match body s with
  | (s', Raise KeyboardInterrupt) => handler s'
  | r => r
  end.

(** ** The answers of the external collaborators *)

Inductive response (A : Type) : Type :=
| Returns (a : A)
| Throws (e : exn).
Arguments Returns {A} a.
Arguments Throws {A} e.

(** An external call is recorded, then answers as the environment says. *)
Definition external {A} (c : call) (r : response A) : M A := fun s =>
  (add_call c s, match r with Returns a => Ok a | Throws e => Raise e end).

(** What the environment does during one pass of the loop: the answer of
    [camera.capture_array()], the answer of [background_subtract.apply],
    and an exception (if any) that surfaces inside the [with lock:] block
    before the assignment of line 80. *)
Record iteration : Type := mkIteration {
  captured : response ndarray;
  subtracted : response ndarray;
  interrupted : option exn
}.

Record environment : Type := mkEnvironment {
  r_Picamera2 : response unit;
  r_create_video_configuration : response unit;
  r_align_configuration : response unit;
  r_configure : response unit;
  r_start : response unit;
  r_createBackgroundSubtractorMOG2 : response unit;
  frames : list iteration;
  r_stop : response unit
}.

(** ** [generate_image] (lines 34-48) *)

Definition generate_image : M (option Image) :=
  print "### Waiting for lock" ;;;
  image_object <- with_lock (
    print "### Have lock" ;;;
    tested <- read_output_frame ;;
    if tested is Some _ then
      print "### Have an output frame" ;;;
      v <- read_output_frame ;;
      let image_object := gr_Image v "Camera" in
      print "### Returning an image <class 'gradio.components.image.Image'>" ;;;
      ret (Some image_object)
    else ret None) ;;
  ret image_object.

(** ** [video_processing] (lines 50-85) *)

(** One pass of the body of [while (1)] (lines 72-80). *)
Definition loop_body (it : iteration) : M unit :=
  pixels <- external capture_array (captured it) ;;
  frame <- alloc pixels ;;
  mask_pixels <- external (background_subtract_apply frame) (subtracted it) ;;
  mask <- alloc mask_pixels ;;
  with_lock (
    match interrupted it with
    | Some e => raise e
    | None =>
        copy <- ndarray_copy frame ;;
        write_output_frame (Some copy)
    end).

(** [while (1)]: the loop never ends normally; when the environment has
    no further answer the loop is waiting in [capture_array]. *)
Fixpoint while_1 (its : list iteration) : M unit :=
  match its with
  | [] => fun s => (s, Pending)
  | it :: rest => loop_body it ;;; while_1 rest
  end.

Definition frame_duration : Z := 1000000 / FRAME_RATE.

Definition video_processing (env : environment) : M unit :=
  print "Opening the camera." ;;;
  external Picamera2 (r_Picamera2 env) ;;;
  print "Configuring PiCamera2 for capture.." ;;;
  external (create_video_configuration
              (OPENCV_FRAME_HORIZONTAL_PIXELS, OPENCV_FRAME_VERTICAL_PIXELS)
              (VIDEO_FRAME_HORIZONTAL_PIXELS, VIDEO_FRAME_VERTICAL_PIXELS)
              (frame_duration, frame_duration))
           (r_create_video_configuration env) ;;;
  external align_configuration (r_align_configuration env) ;;;
  external configure (r_configure env) ;;;
  external start (r_start env) ;;;
  external createBackgroundSubtractorMOG2 (r_createBackgroundSubtractorMOG2 env) ;;;
  print "Capture started." ;;;
  try_except_KeyboardInterrupt
    (while_1 (frames env))
    (external stop (r_stop env) ;;;
     print "Capture stopped." ;;;
     raise KeyboardInterrupt).

(** ** The [__main__] block (lines 87-101)

    [during_grace] is what the environment answered to the video thread
    while the main thread slept; the thread is alive afterwards exactly
    when [video_processing] has not ended. *)

Definition thread_is_alive {A} (r : outcome A) : bool :=
  match r with
  | Pending => true
  | _ => false
  end.

Definition run_thread_while_sleeping {A} (seconds : Z) (target : M A) : M (outcome A) :=
  fun s => let '(s', r) := target (add_call (sleep seconds) s) in (s', Ok r).

Definition main (during_grace : environment) : M unit :=
  external Thread_start (Returns tt) ;;;
  video_thread <- run_thread_while_sleeping 1 (video_processing during_grace) ;;
  alive <- external is_alive (Returns (thread_is_alive video_thread)) ;;
  if alive : bool then
    print "Starting web API (may take a while)." ;;;
    external (launch "0.0.0.0") (Returns tt)
  else
    print "Unable to do video processing!".


(** ** Vocabulary for the statements about the sequential layer *)

(** The pixels a caller receives with the result of [generate_image]. *)
Definition payload (r : option Image) (s : State) : option ndarray :=
  img ← r; l ← value img; heap s !! l.

(** The exception one pass of the loop ends with, if any: the first of
    its three steps that fails. *)
Definition raises (it : iteration) : option exn :=
  match captured it with
  | Throws e => Some e
  | Returns _ =>
      match subtracted it with
      | Throws e => Some e
      | Returns _ => interrupted it
      end
  end.

(** The state after a pass in which nothing failed: three arrays were
    allocated (the frame, the mask, the copy) and the slot refers to the
    copy. *)
Definition published (F Mk : ndarray) (s : State) : State :=
  {| heap := ((heap s ++ [F]) ++ [Mk]) ++ [F];
     output_frame := Some (S (S (length (heap s))));
     lock := false;
     stdout := stdout s;
     calls := (calls s ++ [capture_array])
                ++ [background_subtract_apply (length (heap s))] |}.

(** The calls the body of the loop makes, and the calls
    [video_processing] makes. *)
Definition loop_call (c : call) : bool :=
  match c with
  | capture_array | background_subtract_apply _ => true
  | _ => false
  end.

Definition video_call (c : call) : bool :=
  match c with
  | Thread_start | sleep _ | is_alive | launch _ => false
  | _ => true
  end.

(** What the loop may change besides the slot: arrays are only added,
    the calls appended are calls of the loop body (so [stop] is not among
    them), nothing is printed and the lock is as it was. *)
Definition extends (s s' : State) : Prop :=
  (exists h, heap s' = heap s ++ h)
  /\ (exists cs, calls s' = calls s ++ cs /\ forallb loop_call cs = true)
  /\ stdout s' = stdout s
  /\ lock s' = lock s.

(** Every call of the set-up (lines 56-67) returned. *)
Definition setup_ok (env : environment) : Prop :=
  r_Picamera2 env = Returns tt
  /\ r_create_video_configuration env = Returns tt
  /\ r_align_configuration env = Returns tt
  /\ r_configure env = Returns tt
  /\ r_start env = Returns tt
  /\ r_createBackgroundSubtractorMOG2 env = Returns tt.

Definition with_frames (its : list iteration) (env : environment) : environment :=
  {| r_Picamera2 := r_Picamera2 env;
     r_create_video_configuration := r_create_video_configuration env;
     r_align_configuration := r_align_configuration env;
     r_configure := r_configure env;
     r_start := r_start env;
     r_createBackgroundSubtractorMOG2 := r_createBackgroundSubtractorMOG2 env;
     frames := its;
     r_stop := r_stop env |}.

(** The state in which the loop is entered after a set-up without
    failure: the prints and calls of lines 54-68, in order. *)
Definition set_up (s : State) : State :=
  add_stdout "Capture started."
    (add_call createBackgroundSubtractorMOG2
      (add_call start
        (add_call configure
          (add_call align_configuration
            (add_call (create_video_configuration (1920, 1080) (640, 480) (33333, 33333))
              (add_stdout "Configuring PiCamera2 for capture.."
                (add_call Picamera2
                  (add_stdout "Opening the camera." s)))))))).

(** The handler of line 81. *)
Definition tidy_up (env : environment) : M unit :=
  external stop (r_stop env) ;;;
  print "Capture stopped." ;;;
  raise KeyboardInterrupt.

(** Operations on the slot, one at a time: a call of [generate_image] or
    one pass of the loop. *)
Inductive operation : Type :=
| Query
| Pass (it : iteration).

Definition perform (op : operation) (s : State) : State :=
  match op with
  | Query => fst (generate_image s)
  | Pass it => fst (loop_body it s)
  end.

Definition perform_all (ops : list operation) (s : State) : State :=
  foldl (fun s op => perform op s) s ops.

(** A state the operations can be in between two of them: the lock is
    free and the slot, if bound, refers to an allocated array. *)
Definition between (s : State) : Prop :=
  lock s = false
  /\ forall l, output_frame s = Some l -> (l < length (heap s))%nat.

(** A pass that publishes. *)
Definition publishes (op : operation) : bool :=
  match op with
  | Query => false
  | Pass it => if raises it is None then true else false
  end.

(** * The interleaving layer

    The statements of the loop of [video_processing] and of
    [generate_image] as atomic steps over the shared state.  The video
    thread is taken from the point where the camera has started. *)

(** Where the video thread is. *)
Inductive video_pc : Type :=
| at_capture                    (* line 72 *)
| at_apply (frame : loc)        (* line 74 *)
| at_with (frame : loc)         (* line 78, before the lock is taken *)
| at_copy (frame : loc)         (* line 80, [frame.copy()], lock held *)
| at_assign (copy : loc)        (* line 80, binding [output_frame], lock held *)
| at_release                    (* end of the block, lock held *)
| at_handler                    (* line 83 *)
| ended (e : exn).              (* the exception left the function *)

(** Where a caller of [generate_image] is. *)
Inductive reader_pc : Type :=
| idle                                   (* not in a call *)
| at_lock                                (* line 41, before the lock is taken *)
| at_test                                (* line 43, lock held *)
| at_build                               (* line 46, lock held *)
| at_exit (image_object : option Image)  (* end of the block, lock held *)
| returned (image_object : option Image). (* line 48 *)

(** What an observer of the slot records: each completed assignment of
    line 80 with the array it refers to, and each answer of
    [generate_image] at the moment its caller leaves the block. *)
Inductive event : Type :=
| Published (l : loc) (pixels : option ndarray)
| Answered (reader : nat) (image_object : option Image).

Record System : Type := mkSystem {
  shared : State;
  video : video_pc;
  readers : list reader_pc;
  history : list event          (* newest first *)
}.

Definition start_system (n : nat) : System :=
  {| shared := initial_state; video := at_capture;
     readers := replicate n idle; history := [] |}.

Definition video_holds (pc : video_pc) : bool :=
  match pc with
  | at_copy _ | at_assign _ | at_release => true
  | _ => false
  end.

Definition reader_holds (pc : reader_pc) : bool :=
  match pc with
  | at_test | at_build | at_exit _ => true
  | _ => false
  end.

Definition with_shared (s : State) (sys : System) : System :=
  {| shared := s; video := video sys; readers := readers sys; history := history sys |}.
Definition with_video (pc : video_pc) (sys : System) : System :=
  {| shared := shared sys; video := pc; readers := readers sys; history := history sys |}.
Definition with_reader (i : nat) (pc : reader_pc) (sys : System) : System :=
  {| shared := shared sys; video := video sys;
     readers := <[i := pc]> (readers sys); history := history sys |}.
Definition record (ev : event) (sys : System) : System :=
  {| shared := shared sys; video := video sys; readers := readers sys;
     history := ev :: history sys |}.

(** An exception in the body of the [try]: the [with] statement, if it
    was entered, gives the lock back; [KeyboardInterrupt] goes to the
    handler, anything else leaves the function. *)
Definition video_raise (e : exn) (sys : System) : System :=
  let s := if video_holds (video sys) then set_lock false (shared sys) else shared sys in
  with_video (if e is KeyboardInterrupt then at_handler else ended e)
             (with_shared s sys).

(** One step of the video thread.  [r] is the answer of the environment
    at this step: the array an external call returns, or the exception
    that surfaces; a statement without external call ignores the array.
    [None]: the thread cannot move (the lock is held, or it has ended). *)
Definition video_step (r : response ndarray) (sys : System) : option System :=
  let s := shared sys in
  match video sys, r with
  | ended _, _ => None
  | at_handler, Returns _ =>
      Some (with_video (ended KeyboardInterrupt)
              (with_shared (add_stdout "Capture stopped." (add_call stop s)) sys))
  | at_handler, Throws e =>
      Some (with_video (ended e) (with_shared (add_call stop s) sys))
  | at_capture, Throws e =>
      Some (video_raise e (with_shared (add_call capture_array s) sys))
  | at_apply frame, Throws e =>
      Some (video_raise e (with_shared (add_call (background_subtract_apply frame) s) sys))
  | _, Throws e => Some (video_raise e sys)
  | at_capture, Returns pixels =>
      let s := add_call capture_array s in
      Some (with_video (at_apply (length (heap s)))
              (with_shared (set_heap (heap s ++ [pixels]) s) sys))
  | at_apply frame, Returns mask_pixels =>
      let s := add_call (background_subtract_apply frame) s in
      Some (with_video (at_with frame)
              (with_shared (set_heap (heap s ++ [mask_pixels]) s) sys))
  | at_with frame, Returns _ =>
      if lock s then None
      else Some (with_video (at_copy frame) (with_shared (set_lock true s) sys))
  | at_copy frame, Returns _ =>
      match heap s !! frame with
      | Some a =>
          Some (with_video (at_assign (length (heap s)))
                  (with_shared (set_heap (heap s ++ [a]) s) sys))
      | None => Some (video_raise (Error "AttributeError") sys)
      end
  | at_assign copy, Returns _ =>
      Some (record (Published copy (heap s !! copy))
              (with_video at_release (with_shared (set_output_frame (Some copy) s) sys)))
  | at_release, Returns _ =>
      Some (with_video at_capture (with_shared (set_lock false s) sys))
  end.

(** One step of caller [i] of [generate_image]. *)
Definition reader_step (i : nat) (sys : System) : option System :=
  let s := shared sys in
  match readers sys !! i with
  | None => None
  | Some idle =>
      Some (with_reader i at_lock (with_shared (add_stdout "### Waiting for lock" s) sys))
  | Some at_lock =>
      if lock s then None
      else Some (with_reader i at_test
                   (with_shared (add_stdout "### Have lock" (set_lock true s)) sys))
  | Some at_test =>
      if output_frame s is Some _
      then Some (with_reader i at_build
                   (with_shared (add_stdout "### Have an output frame" s) sys))
      else Some (with_reader i (at_exit None) sys)
  | Some at_build =>
      Some (with_reader i (at_exit (Some (gr_Image (output_frame s) "Camera")))
              (with_shared
                 (add_stdout "### Returning an image <class 'gradio.components.image.Image'>" s)
                 sys))
  | Some (at_exit image_object) =>
      Some (record (Answered i image_object)
              (with_reader i (returned image_object) (with_shared (set_lock false s) sys)))
  | Some (returned _) => Some (with_reader i idle sys)
  end.

Inductive action : Type :=
| Video (r : response ndarray)
| Reader (i : nat).

Definition step (a : action) (sys : System) : option System :=
  match a with
  | Video r => video_step r sys
  | Reader i => reader_step i sys
  end.

(** A schedule is run from left to right; it is refused as soon as the
    thread it names cannot move. *)
Fixpoint run (schedule : list action) (sys : System) : option System :=
  match schedule with
  | [] => Some sys
  | a :: rest =>
      match step a sys with
      | Some sys' => run rest sys'
      | None => None
      end
  end.

(** The latest publish of a history, and the answer a caller who leaves
    the block at that moment is owed. *)
Fixpoint slot_after (h : list event) : option (loc * option ndarray) :=
  match h with
  | [] => None
  | Published l pixels :: _ => Some (l, pixels)
  | Answered _ _ :: older => slot_after older
  end.

Definition image_of (slot : option loc) : option Image :=
  match slot with
  | Some l => Some (gr_Image (Some l) "Camera")
  | None => None
  end.

Definition holders (rs : list reader_pc) : nat :=
  length (filter (fun pc => reader_holds pc = true) rs).

Definition lock_count (sys : System) : nat :=
  (if video_holds (video sys) then 1 else 0) + holders (readers sys).

(** Every answer in a history is the one owed at the moment it was
    given. *)
Fixpoint answers_consistent (h : list event) : Prop :=
  match h with
  | [] => True
  | Published _ _ :: older => answers_consistent older
  | Answered _ r :: older =>
      r = image_of (fst <$> slot_after older) /\ answers_consistent older
  end.

(** What holds in every state the system reaches. *)
Record invariant (sys : System) : Prop := mkInvariant {
  inv_lock : (if lock (shared sys) then 1 else 0)%nat = lock_count sys;
  inv_slot : output_frame (shared sys) = fst <$> slot_after (history sys);
  inv_heap : forall l px, Published l px ∈ history sys ->
               is_Some px /\ heap (shared sys) !! l = px;
  inv_video : match video sys with
              | at_apply l | at_with l | at_copy l | at_assign l =>
                  (l < length (heap (shared sys)))%nat
              | _ => True
              end;
  inv_build : forall i, readers sys !! i = Some at_build ->
                output_frame (shared sys) ≠ None;
  inv_exit : forall i r, readers sys !! i = Some (at_exit r) ->
               r = image_of (output_frame (shared sys));
  inv_answers : answers_consistent (history sys)
}.

(** ** Environments used as examples *)

Definition frame_1 : ndarray := [10; 20; 30]%Z.
Definition frame_2 : ndarray := [11; 21; 31]%Z.
Definition mask_1 : ndarray := [0; 255; 0]%Z.
Definition mask_2 : ndarray := [255; 0; 0]%Z.
Definition pass_1 : iteration :=
  {| captured := Returns frame_1; subtracted := Returns mask_1; interrupted := None |}.
Definition pass_2 : iteration :=
  {| captured := Returns frame_2; subtracted := Returns mask_2; interrupted := None |}.

(** A pass in which [capture_array] raises an error. *)
Definition pass_capture_error : iteration :=
  {| captured := Throws (Error "RuntimeError");
     subtracted := Returns mask_1; interrupted := None |}.

(** A pass in which [KeyboardInterrupt] surfaces in [capture_array]. *)
Definition pass_interrupted : iteration :=
  {| captured := Throws KeyboardInterrupt;
     subtracted := Returns mask_1; interrupted := None |}.

(** A camera that starts; the loop gets the passes [its]. *)
Definition camera_with (its : list iteration) : environment :=
  {| r_Picamera2 := Returns tt;
     r_create_video_configuration := Returns tt;
     r_align_configuration := Returns tt;
     r_configure := Returns tt;
     r_start := Returns tt;
     r_createBackgroundSubtractorMOG2 := Returns tt;
     frames := its;
     r_stop := Returns tt |}.

(** A camera that cannot be opened. *)
Definition no_camera : environment :=
  {| r_Picamera2 := Throws (Error "RuntimeError");
     r_create_video_configuration := Returns tt;
     r_align_configuration := Returns tt;
     r_configure := Returns tt;
     r_start := Returns tt;
     r_createBackgroundSubtractorMOG2 := Returns tt;
     frames := [pass_1];
     r_stop := Returns tt |}.

(** The steps of one uninterrupted call of [generate_image] by caller
    [i], and of one pass of the loop under the answers of [it]. *)
Definition call_schedule (i : nat) (s : State) : list action :=
  replicate (if output_frame s is Some _ then 5 else 4) (Reader i).

Definition pass_schedule (it : iteration) : list action :=
  Video (captured it) ::
  match captured it with
  | Throws _ => []
  | Returns _ =>
      Video (subtracted it) ::
      match subtracted it with
      | Throws _ => []
      | Returns _ =>
          Video (Returns []) ::
          match interrupted it with
          | Some e => [Video (Throws e)]
          | None => [Video (Returns []); Video (Returns []); Video (Returns [])]
          end
      end
  end.

(** Where the video thread is after a pass with the given outcome. *)
Definition video_after (r : outcome unit) : video_pc :=
  match r with
  | Raise KeyboardInterrupt => at_handler
  | Raise e => ended e
  | _ => at_capture
  end.

(** Two callers and the video thread, interleaved: caller 0 asks before
    anything is published, caller 1 after the first publish, while the
    loop already captures the next frame. *)
Definition example_schedule : list action :=
  [Reader 0; Video (Returns frame_1); Reader 0; Video (Returns mask_1);
   Reader 0; Reader 0; Video (Returns []); Reader 1; Video (Returns []);
   Video (Returns []); Video (Returns []); Reader 1; Reader 1;
   Video (Returns frame_2); Reader 1; Reader 1].

(** ** Vocabulary for the statements about whole runs *)

(** The calls of the set-up, in the order of lines 56-67. *)
Definition setup_calls : list call :=
  [Picamera2;
   create_video_configuration
     (OPENCV_FRAME_HORIZONTAL_PIXELS, OPENCV_FRAME_VERTICAL_PIXELS)
     (VIDEO_FRAME_HORIZONTAL_PIXELS, VIDEO_FRAME_VERTICAL_PIXELS)
     (frame_duration, frame_duration);
   align_configuration; configure; start; createBackgroundSubtractorMOG2].

(** The first call of the set-up that raises, with its position. *)
Definition setup_failure (env : environment) : option (nat * exn) :=
  match r_Picamera2 env with
  | Throws e => Some (0%nat, e)
  | Returns _ =>
  match r_create_video_configuration env with
  | Throws e => Some (1%nat, e)
  | Returns _ =>
  match r_align_configuration env with
  | Throws e => Some (2%nat, e)
  | Returns _ =>
  match r_configure env with
  | Throws e => Some (3%nat, e)
  | Returns _ =>
  match r_start env with
  | Throws e => Some (4%nat, e)
  | Returns _ =>
  match r_createBackgroundSubtractorMOG2 env with
  | Throws e => Some (5%nat, e)
  | Returns _ => None
  end end end end end end.

(** The exception of the first pass that raises. *)
Fixpoint loop_failure (its : list iteration) : option exn :=
  match its with
  | [] => None
  | it :: rest =>
      match raises it with
      | Some e => Some e
      | None => loop_failure rest
      end
  end.

(** How [video_processing] stands after the answers of [env]: still in
    the loop when nothing failed; otherwise ended by the first exception,
    where a [KeyboardInterrupt] in the loop goes through the handler and
    is replaced by the exception of [camera.stop()] if that call raises. *)
Definition fate (env : environment) : outcome unit :=
  match setup_failure env with
  | Some (_, e) => Raise e
  | None =>
      match loop_failure (frames env) with
      | None => Pending
      | Some KeyboardInterrupt =>
          match r_stop env with
          | Returns _ => Raise KeyboardInterrupt
          | Throws e => Raise e
          end
      | Some e => Raise e
      end
  end.

(** The order in which the camera and the background subtractor may be
    called: the six calls of the set-up, then [capture_array] and the
    subtraction of the captured frame in turns, then at most one [stop],
    after which nothing. *)
Inductive phase : Type :=
| before (done : nat)     (* [done] calls of the set-up were made, [done < 6] *)
| capturing               (* the next call of the loop is [capture_array] *)
| subtracting             (* the next call of the loop is the subtraction *)
| stopped.

Definition advance (ph : phase) (c : call) : option phase :=
  match ph, c with
  | before 0, Picamera2 => Some (before 1)
  | before 1, create_video_configuration _ _ _ => Some (before 2)
  | before 2, align_configuration => Some (before 3)
  | before 3, configure => Some (before 4)
  | before 4, start => Some (before 5)
  | before 5, createBackgroundSubtractorMOG2 => Some capturing
  | capturing, capture_array => Some subtracting
  | subtracting, background_subtract_apply _ => Some capturing
  | capturing, stop => Some stopped
  | subtracting, stop => Some stopped
  | _, _ => None
  end.

Fixpoint follows (ph : phase) (cs : list call) : option phase :=
  match cs with
  | [] => Some ph
  | c :: rest =>
      match advance ph c with
      | Some ph' => follows ph' rest
      | None => None
      end
  end.

Definition is_reader (a : action) : bool :=
  match a with
  | Reader _ => true
  | Video _ => false
  end.

(** The thread that holds the lock is able to take its next step: the
    video thread under every answer of the environment, or a caller of
    [generate_image]. *)
Definition holder_can_step (sys : System) : Prop :=
  (video_holds (video sys) = true /\ forall r, is_Some (video_step r sys))
  \/ (exists j pc, readers sys !! j = Some pc /\ reader_holds pc = true
                   /\ is_Some (reader_step j sys)).

(** ** The main thread and the video thread side by side

    [main] of lines 87-101 once more, with what it cannot see made
    explicit: what the video thread does while the main thread sleeps and
    while it serves, and how [sleep] and [launch] end.  CPython runs the
    handler of a signal in the main thread only, so the
    [KeyboardInterrupt] of a SIGINT is raised by the statement the main
    thread is in, [sleep(1)] or [launch]; the video thread is a daemon
    thread (line 89) and is abandoned where it stands when the main thread
    ends. *)

Definition sleeping {A} (seconds : Z) (r_sleep : response unit) (thread : M A)
  : M (outcome A) := fun s =>
  let '(s', r) := thread (add_call (sleep seconds) s) in
  (s', match r_sleep with Returns _ => Ok r | Throws e => Raise e end).

Definition launching {A} (server_name : string) (r_launch : response unit) (thread : M A)
  : M unit := fun s =>
  let '(s', _) := thread (add_call (launch server_name) s) in
  (s', match r_launch with Returns _ => Ok tt | Throws e => Raise e end).

Definition main_with {A} (r_sleep r_launch : response unit) (during_grace after : M A)
  : M unit :=
  external Thread_start (Returns tt) ;;;
  video_thread <- sleeping 1 r_sleep during_grace ;;
  alive <- external is_alive (Returns (thread_is_alive video_thread)) ;;
  if alive : bool then
    print "Starting web API (may take a while)." ;;;
    launching "0.0.0.0" r_launch after
  else
    print "Unable to do video processing!".

(** A thread that makes no progress, and the video thread going on with
    further passes of its loop, inside the same [try]. *)
Definition no_progress : M unit := fun s => (s, Pending).

Definition video_continues (env : environment) (later : list iteration) : M unit :=
  try_except_KeyboardInterrupt (while_1 later) (tidy_up env).

(** ** A set-up that has not finished

    A call of the set-up may not have answered yet when the main thread
    asks [is_alive]: the thread is then inside that call. *)

Inductive setup_position : Type :=
| in_Picamera2
| in_create_video_configuration
| in_align_configuration
| in_configure
| in_start
| in_createBackgroundSubtractorMOG2.

Definition position (p : setup_position) : nat :=
  match p with
  | in_Picamera2 => 0
  | in_create_video_configuration => 1
  | in_align_configuration => 2
  | in_configure => 3
  | in_start => 4
  | in_createBackgroundSubtractorMOG2 => 5
  end.

Inductive answer (A : Type) : Type :=
| Came (r : response A)
| Outstanding.
Arguments Came {A} r.
Arguments Outstanding {A}.

(** An external call whose answer may be outstanding: the call is
    recorded, and the caller waits. *)
Definition awaited {A} (c : call) (a : answer A) : M A := fun s =>
  (add_call c s,
   match a with
   | Came (Returns x) => Ok x
   | Came (Throws e) => Raise e
   | Outstanding => Pending
   end).

Definition so_far {A} (outstanding : option setup_position) (k : nat) (r : response A)
  : answer A :=
  match outstanding with
  | Some p => if Nat.eqb (position p) k then Outstanding else Came r
  | None => Came r
  end.

(** [video_processing] (lines 50-85) under an environment in which the
    call at [outstanding], if any, has not answered. *)
Definition video_processing_so_far
    (outstanding : option setup_position) (env : environment) : M unit :=
  print "Opening the camera." ;;;
  awaited Picamera2 (so_far outstanding 0 (r_Picamera2 env)) ;;;
  print "Configuring PiCamera2 for capture.." ;;;
  awaited (create_video_configuration
             (OPENCV_FRAME_HORIZONTAL_PIXELS, OPENCV_FRAME_VERTICAL_PIXELS)
             (VIDEO_FRAME_HORIZONTAL_PIXELS, VIDEO_FRAME_VERTICAL_PIXELS)
             (frame_duration, frame_duration))
          (so_far outstanding 1 (r_create_video_configuration env)) ;;;
  awaited align_configuration (so_far outstanding 2 (r_align_configuration env)) ;;;
  awaited configure (so_far outstanding 3 (r_configure env)) ;;;
  awaited start (so_far outstanding 4 (r_start env)) ;;;
  awaited createBackgroundSubtractorMOG2
          (so_far outstanding 5 (r_createBackgroundSubtractorMOG2 env)) ;;;
  print "Capture started." ;;;
  try_except_KeyboardInterrupt
    (while_1 (frames env))
    (external stop (r_stop env) ;;;
     print "Capture stopped." ;;;
     raise KeyboardInterrupt).


(** * Properties of the sequential layer *)

Ltac run :=
  unfold generate_image, loop_body, with_lock, ndarray_copy, alloc,
    external, print, read_output_frame, write_output_frame, bind, ret, raise.

Lemma loop_call_not_stop (cs : list call) :
  forallb loop_call cs = true -> stop ∉ cs.
Proof.
  induction cs as [|c cs IH]; simpl; intros H.
  - apply not_elem_of_nil.
  - apply andb_true_iff in H as [Hc Hcs].
    apply not_elem_of_cons. split; [|auto].
    intros <-. discriminate.
Qed.

Lemma loop_call_video_call (cs : list call) :
  forallb loop_call cs = true -> forallb video_call cs = true.
Proof.
  induction cs as [|c cs IH]; simpl; intros H; [reflexivity|].
  apply andb_true_iff in H as [Hc Hcs]. rewrite (IH Hcs).
  destruct c; try discriminate; reflexivity.
Qed.

Lemma video_call_not_launch (cs : list call) (a : string) :
  forallb video_call cs = true -> launch a ∉ cs.
Proof.
  induction cs as [|c cs IH]; simpl; intros H.
  - apply not_elem_of_nil.
  - apply andb_true_iff in H as [Hc Hcs].
    apply not_elem_of_cons. split; [|auto].
    intros <-. discriminate.
Qed.

Section GenerateImage.

Lemma generate_image_unlocked (s : State) :
  lock s = false ->
  exists s',
    generate_image s = (s', Ok (image_of (output_frame s)))
    /\ heap s' = heap s /\ output_frame s' = output_frame s
    /\ lock s' = false /\ calls s' = calls s.
Proof.
  intros Hl. run. simpl. rewrite Hl. simpl.
  destruct (output_frame s) as [l|] eqn:E; simpl; rewrite ?E;
    eexists; (split; [reflexivity | simpl; auto]).
Qed.

Lemma generate_image_locked (s : State) :
  lock s = true ->
  generate_image s = (add_stdout "### Waiting for lock" s, Pending).
Proof. intros Hl. run. simpl. rewrite Hl. reflexivity. Qed.

End GenerateImage.

Section CaptureLoop.

Lemma lookup_frame (h : list ndarray) (F Mk : ndarray) :
  ((h ++ [F]) ++ [Mk]) !! length h = Some F.
Proof.
  rewrite <- app_assoc. rewrite lookup_app_r by lia.
  replace (length h - length h)%nat with 0%nat by lia. reflexivity.
Qed.

Lemma loop_body_ok (it : iteration) (F Mk : ndarray) (s : State) :
  captured it = Returns F -> subtracted it = Returns Mk ->
  interrupted it = None -> lock s = false ->
  loop_body it s = (published F Mk s, Ok tt).
Proof.
  intros Hc Hm Hi Hl. run. rewrite Hc, Hm, Hi. simpl. rewrite Hl.
  simpl. rewrite lookup_frame. simpl.
  rewrite !length_app. simpl.
  replace (length (heap s) + 1 + 1)%nat with (S (S (length (heap s)))) by lia.
  reflexivity.
Qed.

Lemma extends_refl (s : State) : extends s s.
Proof.
  repeat split; auto.
  - exists []. now rewrite app_nil_r.
  - exists []. rewrite app_nil_r. split; reflexivity.
Qed.

Lemma extends_trans (s1 s2 s3 : State) :
  extends s1 s2 -> extends s2 s3 -> extends s1 s3.
Proof.
  intros ([h1 H1] & (c1 & C1 & N1) & O1 & L1) ([h2 H2] & (c2 & C2 & N2) & O2 & L2).
  repeat split; try congruence.
  - exists (h1 ++ h2). rewrite H2, H1, app_assoc. reflexivity.
  - exists (c1 ++ c2). rewrite C2, C1, app_assoc. split; [reflexivity|].
    rewrite forallb_app, N1, N2. reflexivity.
Qed.

Lemma published_extends (F Mk : ndarray) (s : State) :
  lock s = false -> extends s (published F Mk s).
Proof.
  intros Hl. repeat split; simpl; auto.
  - exists [F; Mk; F]. rewrite <- !app_assoc. reflexivity.
  - eexists. rewrite <- app_assoc. split; reflexivity.
Qed.

(** A pass in which nothing fails publishes. *)
Lemma loop_body_completes (it : iteration) (s : State) :
  lock s = false -> raises it = None ->
  exists F Mk, captured it = Returns F /\ subtracted it = Returns Mk
               /\ interrupted it = None
               /\ loop_body it s = (published F Mk s, Ok tt).
Proof.
  intros Hl Hr. unfold raises in Hr.
  destruct (captured it) as [F|] eqn:Hc; [|discriminate].
  destruct (subtracted it) as [Mk|] eqn:Hm; [|discriminate].
  exists F, Mk. repeat split; auto. apply loop_body_ok; auto.
Qed.

(** A pass in which a step fails raises and leaves the slot alone. *)
Lemma loop_body_raises (it : iteration) (e : exn) (s : State) :
  lock s = false -> raises it = Some e ->
  exists s', loop_body it s = (s', Raise e)
             /\ output_frame s' = output_frame s /\ extends s s'.
Proof.
  intros Hl Hr. unfold raises in Hr.
  destruct (captured it) as [F|e1] eqn:Hc.
  - destruct (subtracted it) as [Mk|e2] eqn:Hm.
    + run. rewrite Hc, Hm, Hr. simpl. rewrite Hl. simpl.
      eexists. split; [reflexivity|]. simpl. split; [reflexivity|].
      repeat split; simpl; auto.
      * exists [F; Mk]. rewrite <- app_assoc. reflexivity.
      * eexists. rewrite <- app_assoc. split; reflexivity.
    + injection Hr as ->. run. rewrite Hc, Hm. simpl.
      eexists. split; [reflexivity|]. simpl. split; [reflexivity|].
      repeat split; simpl; auto.
      * exists [F]. reflexivity.
      * eexists. rewrite <- app_assoc. split; reflexivity.
  - injection Hr as ->. run. rewrite Hc. simpl.
    eexists. split; [reflexivity|]. simpl. split; [reflexivity|].
    repeat split; simpl; auto.
    + exists []. now rewrite app_nil_r.
    + eexists. split; reflexivity.
Qed.

(** The loop never ends normally. *)
Lemma while_1_never_returns (its : list iteration) (s s' : State) (a : unit) :
  while_1 its s ≠ (s', Ok a).
Proof.
  revert s. induction its as [|it rest IH]; intros s; simpl.
  - discriminate.
  - unfold bind. destruct (loop_body it s) as [s1 [[]|e|]]; try discriminate.
    apply IH.
Qed.

(** Passes that all complete leave the loop waiting for the camera. *)
Lemma while_1_passes (its : list iteration) (s : State) :
  lock s = false -> Forall (fun it => raises it = None) its ->
  while_1 its s = (perform_all (Pass <$> its) s, Pending)
  /\ lock (perform_all (Pass <$> its) s) = false
  /\ extends s (perform_all (Pass <$> its) s).
Proof.
  revert s. induction its as [|it rest IH]; intros s Hl Hall.
  - simpl. split; [reflexivity|]. split; [exact Hl | apply extends_refl].
  - inversion Hall as [|? ? Hit Hrest]; subst.
    destruct (loop_body_completes it s Hl Hit) as (F & Mk & _ & _ & _ & Hb).
    change (while_1 (it :: rest) s) with (bind (loop_body it) (fun _ => while_1 rest) s).
    change (perform_all (Pass <$> it :: rest) s)
      with (perform_all (Pass <$> rest) (fst (loop_body it s))).
    unfold bind at 1. rewrite Hb. simpl fst.
    destruct (IH (published F Mk s) eq_refl Hrest) as (H1 & H2 & H3).
    split; [exact H1|]. split; [exact H2|].
    eapply extends_trans; [apply published_extends; auto | exact H3].
Qed.

Lemma while_1_app (its1 its2 : list iteration) (s : State) :
  lock s = false -> Forall (fun it => raises it = None) its1 ->
  while_1 (its1 ++ its2) s = while_1 its2 (perform_all (Pass <$> its1) s).
Proof.
  revert s. induction its1 as [|it rest IH]; intros s Hl Hall.
  - reflexivity.
  - inversion Hall as [|? ? Hit Hrest]; subst.
    destruct (loop_body_completes it s Hl Hit) as (F & Mk & _ & _ & _ & Hb).
    change (while_1 ((it :: rest) ++ its2) s)
      with (bind (loop_body it) (fun _ => while_1 (rest ++ its2)) s).
    change (perform_all (Pass <$> it :: rest) s)
      with (perform_all (Pass <$> rest) (fst (loop_body it s))).
    unfold bind at 1. rewrite Hb. simpl fst.
    apply IH; auto.
Qed.

End CaptureLoop.

Section VideoProcessing.

(** The loop, whatever the environment answers: it does not return,
    and what it leaves is an extension of what it found. *)
Lemma while_1_extends (its : list iteration) (s : State) :
  lock s = false ->
  exists s' r, while_1 its s = (s', r) /\ extends s s'
               /\ (forall a, r ≠ Ok a)
               /\ (output_frame s ≠ None -> output_frame s' ≠ None).
Proof.
  revert s. induction its as [|it rest IH]; intros s Hl.
  - exists s, Pending. split; [reflexivity|]. split; [apply extends_refl|].
    split; [discriminate | auto].
  - change (while_1 (it :: rest) s) with (bind (loop_body it) (fun _ => while_1 rest) s).
    unfold bind. destruct (raises it) as [e|] eqn:Hr.
    + destruct (loop_body_raises it e s Hl Hr) as (s' & Hb & Ho & He).
      rewrite Hb. exists s', (Raise e). split; [reflexivity|]. split; [exact He|].
      split; [discriminate | congruence].
    + destruct (loop_body_completes it s Hl Hr) as (F & Mk & _ & _ & _ & Hb).
      rewrite Hb.
      destruct (IH (published F Mk s) eq_refl) as (s' & r & Hw & He & Hn & Ho).
      exists s', r. split; [exact Hw|]. split.
      * eapply extends_trans; [apply published_extends; auto | exact He].
      * split; [exact Hn|]. intros _. apply Ho. discriminate.
Qed.

Lemma video_processing_set_up (env : environment) (s : State) :
  setup_ok env ->
  video_processing env s =
    try_except_KeyboardInterrupt (while_1 (frames env)) (tidy_up env) (set_up s).
Proof.
  intros (H1 & H2 & H3 & H4 & H5 & H6).
  unfold video_processing, bind, external, print.
  rewrite H1, H2, H3, H4, H5, H6. reflexivity.
Qed.

Lemma extends_set_up (s s' : State) :
  extends (set_up s) s' ->
  (exists h, heap s' = heap s ++ h)
  /\ lock s' = lock s
  /\ exists cs, calls s' = calls s ++ cs /\ forallb video_call cs = true
                /\ stop ∉ cs.
Proof.
  intros ([h Hh] & (cs & Hc & Hcs) & _ & Hl).
  split; [exists h; exact Hh|]. split; [exact Hl|].
  eexists. split.
  - rewrite Hc. simpl. rewrite <- !app_assoc. reflexivity.
  - simpl. split.
    + apply loop_call_video_call, Hcs.
    + repeat (apply not_elem_of_cons; split; [discriminate|]).
      apply loop_call_not_stop, Hcs.
Qed.

(** When the camera cannot be opened the function ends at once. *)
Lemma video_processing_not_opened (env : environment) (e : exn) (s : State) :
  r_Picamera2 env = Throws e ->
  video_processing env s =
    (add_call Picamera2 (add_stdout "Opening the camera." s), Raise e).
Proof.
  intros H. unfold video_processing, bind, external, print. rewrite H. reflexivity.
Qed.

(** The calls of [video_processing] are calls on the camera and on the
    background subtractor only. *)
Lemma video_processing_calls (env : environment) (s : State) :
  lock s = false ->
  exists cs, calls (fst (video_processing env s)) = calls s ++ cs
             /\ forallb video_call cs = true.
Proof.
  intros Hl.
  destruct (r_Picamera2 env) as [[]|e1] eqn:H1;
    [| unfold video_processing, bind, external, print; rewrite H1;
       eexists; split; reflexivity ].
  destruct (r_create_video_configuration env) as [[]|e2] eqn:H2;
    [| unfold video_processing, bind, external, print; rewrite H1, H2; simpl;
       eexists; split; [rewrite <- app_assoc|]; reflexivity ].
  destruct (r_align_configuration env) as [[]|e3] eqn:H3;
    [| unfold video_processing, bind, external, print; rewrite H1, H2, H3; simpl;
       eexists; split; [rewrite <- !app_assoc|]; reflexivity ].
  destruct (r_configure env) as [[]|e4] eqn:H4;
    [| unfold video_processing, bind, external, print; rewrite H1, H2, H3, H4; simpl;
       eexists; split; [rewrite <- !app_assoc|]; reflexivity ].
  destruct (r_start env) as [[]|e5] eqn:H5;
    [| unfold video_processing, bind, external, print;
       rewrite H1, H2, H3, H4, H5; simpl;
       eexists; split; [rewrite <- !app_assoc|]; reflexivity ].
  destruct (r_createBackgroundSubtractorMOG2 env) as [[]|e6] eqn:H6;
    [| unfold video_processing, bind, external, print;
       rewrite H1, H2, H3, H4, H5, H6; simpl;
       eexists; split; [rewrite <- !app_assoc|]; reflexivity ].
  rewrite video_processing_set_up by (repeat split; assumption).
  unfold try_except_KeyboardInterrupt.
  destruct (while_1_extends (frames env) (set_up s) Hl) as (s' & r & Hw & He & _).
  rewrite Hw.
  destruct (extends_set_up s s' He) as (_ & _ & cs & Hc & Hv & _).
  destruct r as [a|[|name]|]; simpl; try (exists cs; split; assumption).
  unfold tidy_up, bind, external, print, raise.
  destruct (r_stop env) as [[]|e]; simpl; exists (cs ++ [stop]);
    rewrite Hc, <- app_assoc, forallb_app, Hv; split; reflexivity.
Qed.

End VideoProcessing.

Section Operations.

Lemma between_initial : between initial_state.
Proof. split; [reflexivity | discriminate]. Qed.

Lemma perform_cases (op : operation) (s : State) :
  lock s = false ->
  lock (perform op s) = false
  /\ (exists h, heap (perform op s) = heap s ++ h)
  /\ (if publishes op
      then exists F Mk, perform op s = published F Mk s
      else output_frame (perform op s) = output_frame s).
Proof.
  intros Hl. destruct op as [|it]; simpl.
  - destruct (generate_image_unlocked s Hl) as (s' & Hg & Hh & Ho & Hl' & _).
    rewrite Hg. simpl. split; [exact Hl'|]. split; [|exact Ho].
    exists []. now rewrite app_nil_r.
  - destruct (raises it) as [e|] eqn:Hr.
    + destruct (loop_body_raises it e s Hl Hr) as (s' & Hb & Ho & (Hh & _ & _ & Hl')).
      rewrite Hb. simpl. split; [congruence|]. split; [exact Hh | exact Ho].
    + destruct (loop_body_completes it s Hl Hr) as (F & Mk & _ & _ & _ & Hb).
      rewrite Hb. simpl. split; [reflexivity|]. split; [|eauto].
      exists [F; Mk; F]. rewrite <- !app_assoc. reflexivity.
Qed.

Lemma perform_between (op : operation) (s : State) :
  between s -> between (perform op s).
Proof.
  intros [Hl Hw]. destruct (perform_cases op s Hl) as (Hl' & [h Hh] & Hp).
  split; [exact Hl'|]. intros l Hl0. rewrite Hh, length_app.
  destruct (publishes op).
  - destruct Hp as (F & Mk & Hp). rewrite Hp in Hl0, Hh. simpl in Hl0, Hh.
    injection Hl0 as <-. apply (f_equal length) in Hh.
    rewrite !length_app in Hh. simpl in Hh. lia.
  - rewrite Hp in Hl0. specialize (Hw l Hl0). lia.
Qed.

Lemma perform_all_between (ops : list operation) (s : State) :
  between s -> between (perform_all ops s).
Proof.
  revert s. induction ops as [|op ops IH]; intros s Hs; [exact Hs|].
  apply (IH (perform op s)), perform_between, Hs.
Qed.

(** Arrays once allocated keep their pixels. *)
Lemma perform_all_heap (ops : list operation) (s : State) :
  lock s = false -> exists h, heap (perform_all ops s) = heap s ++ h.
Proof.
  revert s. induction ops as [|op ops IH]; intros s Hl.
  - exists []. now rewrite app_nil_r.
  - destruct (perform_cases op s Hl) as (Hl' & [h Hh] & _).
    destruct (IH (perform op s) Hl') as [h' Hh'].
    exists (h ++ h'). change (perform_all (op :: ops) s)
      with (perform_all ops (perform op s)).
    rewrite Hh', Hh, app_assoc. reflexivity.
Qed.

(** The slot after a run of operations: bound as soon as one of them
    published, untouched otherwise. *)
Lemma perform_all_slot (ops : list operation) (s : State) :
  lock s = false ->
  if existsb publishes ops
  then output_frame (perform_all ops s) ≠ None
  else output_frame (perform_all ops s) = output_frame s.
Proof.
  revert s. induction ops as [|op ops IH]; intros s Hl; [reflexivity|].
  destruct (perform_cases op s Hl) as (Hl' & _ & Hp).
  change (perform_all (op :: ops) s) with (perform_all ops (perform op s)).
  specialize (IH (perform op s) Hl'). simpl.
  destruct (publishes op); simpl.
  - destruct Hp as (F & Mk & Hp).
    destruct (existsb publishes ops); [exact IH|].
    rewrite IH, Hp. discriminate.
  - destruct (existsb publishes ops); [exact IH | congruence].
Qed.

Lemma perform_all_keeps_slot_bound (ops : list operation) (s : State) :
  lock s = false -> output_frame s ≠ None ->
  output_frame (perform_all ops s) ≠ None.
Proof.
  intros Hl Hs. pose proof (perform_all_slot ops s Hl) as H.
  destruct (existsb publishes ops); congruence.
Qed.

Lemma published_slot_content (F Mk : ndarray) (s : State) :
  slot_content (published F Mk s) = Some F.
Proof.
  unfold slot_content. simpl.
  rewrite lookup_app_r by (rewrite !length_app; simpl; lia).
  rewrite !length_app. simpl.
  replace (S (S (length (heap s))) - (length (heap s) + 1 + 1))%nat with 0%nat by lia.
  reflexivity.
Qed.

(** The only place where a caller of [generate_image] can be held up
    is line 41, and only while the lock is held. *)
Lemma reader_step_blocked (i : nat) (pc : reader_pc) (sys : System) :
  readers sys !! i = Some pc -> reader_step i sys = None ->
  pc = at_lock /\ lock (shared sys) = true.
Proof.
  intros Hi H. unfold reader_step in H. rewrite Hi in H.
  destruct pc; try discriminate.
  - destruct (lock (shared sys)); [auto | discriminate].
  - destruct (output_frame (shared sys)); discriminate.
Qed.

End Operations.

(** * The capture loop and the query function, one operation at a time *)

(** C1. In every pass of the loop that completes, the background
    subtractor is applied to the captured frame and its result is
    computed, but the slot is bound to a new array holding the pixels of
    the captured frame itself; the mask is referred to by nothing, and
    the slot is the same whatever the mask was. *)
Theorem raw_frame_is_published (it : iteration) (F Mk : ndarray) (s : State) :
  captured it = Returns F -> subtracted it = Returns Mk ->
  interrupted it = None -> lock s = false ->
  exists s' frame mask copy,
    loop_body it s = (s', Ok tt)
    /\ calls s' = calls s ++ [capture_array; background_subtract_apply frame]
    /\ heap s' !! frame = Some F
    /\ heap s' !! mask = Some Mk
    /\ output_frame s' = Some copy /\ copy ≠ frame /\ copy ≠ mask
    /\ slot_content s' = Some F
    /\ (forall it' Mk', captured it' = Returns F -> subtracted it' = Returns Mk' ->
          interrupted it' = None ->
          output_frame (fst (loop_body it' s)) = Some copy
          /\ slot_content (fst (loop_body it' s)) = Some F).
Proof.
  intros Hc Hm Hi Hl.
  pose proof (fun M' => published_slot_content F M' s) as Hslot.
  exists (published F Mk s), (length (heap s)), (S (length (heap s))),
    (S (S (length (heap s)))).
  split; [apply loop_body_ok; auto|].
  split; [simpl; rewrite <- app_assoc; reflexivity|].
  split; [simpl; rewrite lookup_app_l by (rewrite !length_app; simpl; lia);
          apply lookup_frame|].
  split.
  { simpl. rewrite lookup_app_l by (rewrite !length_app; simpl; lia).
    rewrite lookup_app_r by (rewrite !length_app; simpl; lia).
    rewrite !length_app. simpl.
    replace (S (length (heap s)) - (length (heap s) + 1))%nat with 0%nat by lia.
    reflexivity. }
  split; [reflexivity|]. split; [lia|]. split; [lia|].
  split; [apply Hslot|].
  intros it' Mk' Hc' Hm' Hi'.
  rewrite (loop_body_ok it' F Mk' s Hc' Hm' Hi' Hl). simpl fst.
  split; [reflexivity | apply Hslot].
Qed.

Lemma raw_frame_is_published_witness :
  exists s' frame mask copy,
    loop_body pass_1 initial_state = (s', Ok tt)
    /\ calls s' = calls initial_state ++ [capture_array; background_subtract_apply frame]
    /\ heap s' !! frame = Some frame_1
    /\ heap s' !! mask = Some mask_1
    /\ output_frame s' = Some copy /\ copy ≠ frame /\ copy ≠ mask
    /\ slot_content s' = Some frame_1
    /\ (forall it' Mk', captured it' = Returns frame_1 -> subtracted it' = Returns Mk' ->
          interrupted it' = None ->
          output_frame (fst (loop_body it' initial_state)) = Some copy
          /\ slot_content (fst (loop_body it' initial_state)) = Some frame_1).
Proof.
  apply (raw_frame_is_published pass_1 frame_1 mask_1 initial_state); reflexivity.
Defined.

(** C3. As long as no pass of the loop has completed, whatever calls of
    [generate_image] and failed passes there have been, a call of
    [generate_image] returns [None]: it completes, allocates no array and
    leaves the slot unbound.  A caller is never held up waiting for a
    frame: the only step at which it can be held up is the acquisition of
    the lock at line 41. *)
Theorem query_before_first_publish (ops : list operation) :
  existsb publishes ops = false ->
  let s := perform_all ops initial_state in
  (exists s', generate_image s = (s', Ok None)
              /\ heap s' = heap s /\ output_frame s' = None
              /\ lock s' = false /\ calls s' = calls s)
  /\ forall sys i pc, readers sys !! i = Some pc -> reader_step i sys = None ->
       pc = at_lock /\ lock (shared sys) = true.
Proof.
  intros Hops s. split; [|exact (fun sys i pc => reader_step_blocked i pc sys)].
  pose proof (perform_all_between ops initial_state between_initial) as [Hl _].
  pose proof (perform_all_slot ops initial_state eq_refl) as Ho.
  rewrite Hops in Ho. fold s in Hl, Ho. simpl in Ho.
  destruct (generate_image_unlocked s Hl) as (s' & Hg & Hh & Ho' & Hl' & Hc).
  rewrite Ho in Hg, Ho'. exists s'. auto.
Qed.

Lemma query_before_first_publish_witness :
  let s := perform_all [Query; Pass pass_capture_error; Query] initial_state in
  (exists s', generate_image s = (s', Ok None)
              /\ heap s' = heap s /\ output_frame s' = None
              /\ lock s' = false /\ calls s' = calls s)
  /\ forall sys i pc, readers sys !! i = Some pc -> reader_step i sys = None ->
       pc = at_lock /\ lock (shared sys) = true.
Proof.
  apply (query_before_first_publish [Query; Pass pass_capture_error; Query]).
  reflexivity.
Defined.

(** C5. Two calls of [generate_image] in a row, with no pass of the loop
    between them, return the same image with the same pixels, which are
    the pixels the slot held; neither call changes the slot. *)
Theorem query_is_idempotent (s : State) :
  lock s = false ->
  exists s1 s2 r,
    generate_image s = (s1, Ok r)
    /\ generate_image s1 = (s2, Ok r)
    /\ payload r s1 = slot_content s
    /\ payload r s2 = slot_content s
    /\ output_frame s1 = output_frame s /\ slot_content s1 = slot_content s
    /\ output_frame s2 = output_frame s /\ slot_content s2 = slot_content s.
Proof.
  intros Hl.
  destruct (generate_image_unlocked s Hl) as (s1 & Hg1 & Hh1 & Ho1 & Hl1 & _).
  destruct (generate_image_unlocked s1 Hl1) as (s2 & Hg2 & Hh2 & Ho2 & Hl2 & _).
  exists s1, s2, (image_of (output_frame s)).
  split; [exact Hg1|]. split; [rewrite Hg2, Ho1; reflexivity|].
  unfold slot_content, payload. rewrite Ho2, Ho1, Hh2, Hh1.
  destruct (output_frame s); simpl; auto 10.
Qed.

Lemma query_is_idempotent_witness :
  exists s1 s2 r,
    generate_image (published frame_1 mask_1 initial_state) = (s1, Ok r)
    /\ generate_image s1 = (s2, Ok r)
    /\ payload r s1 = Some frame_1
    /\ payload r s2 = Some frame_1
    /\ output_frame s1 = Some 2%nat /\ slot_content s1 = Some frame_1
    /\ output_frame s2 = Some 2%nat /\ slot_content s2 = Some frame_1.
Proof.
  apply (query_is_idempotent (published frame_1 mask_1 initial_state)). reflexivity.
Defined.

(** C4. Two passes of the loop in a row that capture F1 and then F2 leave
    the slot bound to an array with exactly the pixels F2; the call of
    [generate_image] that follows returns an image of that array, and so
    does the call after it: nothing of F1 is kept for a later answer. *)
Theorem latest_wins (it1 it2 : iteration) (F1 F2 : ndarray) (s : State) :
  captured it1 = Returns F1 -> raises it1 = None ->
  captured it2 = Returns F2 -> raises it2 = None ->
  lock s = false ->
  exists s2 s3 s4 img,
    while_1 [it1; it2] s = (s2, Pending)
    /\ slot_content s2 = Some F2
    /\ generate_image s2 = (s3, Ok (Some img))
    /\ payload (Some img) s3 = Some F2
    /\ generate_image s3 = (s4, Ok (Some img))
    /\ payload (Some img) s4 = Some F2.
Proof.
  intros Hc1 Hr1 Hc2 Hr2 Hl.
  destruct (loop_body_completes it1 s Hl Hr1) as (F1' & Mk1 & Hc1' & Hm1 & Hi1 & Hb1).
  assert (F1' = F1) as -> by congruence.
  set (s1 := published F1 Mk1 s) in *.
  destruct (loop_body_completes it2 s1 eq_refl Hr2)
    as (F2' & Mk2 & Hc2' & Hm2 & Hi2 & Hb2).
  assert (F2' = F2) as -> by congruence.
  set (s2 := published F2 Mk2 s1) in *.
  pose proof (published_slot_content F2 Mk2 s1) as Hs2. fold s2 in Hs2.
  destruct (generate_image_unlocked s2 eq_refl) as (s3 & Hg3 & Hh3 & Ho3 & Hl3 & _).
  destruct (generate_image_unlocked s3 Hl3) as (s4 & Hg4 & Hh4 & Ho4 & Hl4 & _).
  rewrite Ho3 in Hg4.
  exists s2, s3, s4, (gr_Image (output_frame s2) "Camera").
  split; [simpl; unfold bind; rewrite Hb1, Hb2; reflexivity|].
  split; [exact Hs2|]. split; [exact Hg3|].
  split; [simpl; rewrite Hh3; exact Hs2|].
  split; [exact Hg4|]. simpl. rewrite Hh4, Hh3. exact Hs2.
Qed.

Lemma latest_wins_witness :
  exists s2 s3 s4 img,
    while_1 [pass_1; pass_2] initial_state = (s2, Pending)
    /\ slot_content s2 = Some frame_2
    /\ generate_image s2 = (s3, Ok (Some img))
    /\ payload (Some img) s3 = Some frame_2
    /\ generate_image s3 = (s4, Ok (Some img))
    /\ payload (Some img) s4 = Some frame_2.
Proof.
  apply (latest_wins pass_1 pass_2 frame_1 frame_2 initial_state); reflexivity.
Defined.

(** C10. After any operations from the start, the slot, once bound, stays
    bound whatever operations follow; a pass that completes binds it; and
    [generate_image] returns [None] exactly when no pass has completed
    yet. *)
Theorem slot_never_empty_again (before after : list operation) :
  let s1 := perform_all before initial_state in
  let s2 := perform_all after s1 in
  (output_frame s1 ≠ None -> output_frame s2 ≠ None)
  /\ (forall it, raises it = None -> output_frame (perform (Pass it) s1) ≠ None)
  /\ (snd (generate_image s1) = Ok None <-> existsb publishes before = false)
  /\ (existsb publishes before = true -> snd (generate_image s2) ≠ Ok None).
Proof.
  intros s1 s2.
  pose proof (perform_all_between before initial_state between_initial) as B1.
  fold s1 in B1.
  pose proof (perform_all_between after s1 B1) as B2. fold s2 in B2.
  destruct B1 as [Hl1 _], B2 as [Hl2 _].
  pose proof (perform_all_slot before initial_state eq_refl) as Hs. fold s1 in Hs.
  destruct (generate_image_unlocked s1 Hl1) as (s1' & Hg1 & _).
  destruct (generate_image_unlocked s2 Hl2) as (s2' & Hg2 & _).
  split; [apply perform_all_keeps_slot_bound; exact Hl1|].
  split.
  { intros it Hr. destruct (perform_cases (Pass it) s1 Hl1) as (_ & _ & Hp).
    simpl publishes in Hp. rewrite Hr in Hp. destruct Hp as (F & Mk & ->).
    discriminate. }
  rewrite Hg1, Hg2. simpl snd. split.
  - destruct (existsb publishes before).
    + destruct (output_frame s1); [|congruence]. split; discriminate.
    + rewrite Hs. simpl. tauto.
  - intros Hb. rewrite Hb in Hs.
    pose proof (perform_all_keeps_slot_bound after s1 Hl1 Hs) as H2. fold s2 in H2.
    destruct (output_frame s2); [discriminate | congruence].
Qed.

Lemma slot_never_empty_again_witness :
  let s1 := perform_all [Query; Pass pass_1; Query] initial_state in
  let s2 := perform_all [Query; Pass pass_2; Query; Query] s1 in
  (output_frame s1 ≠ None -> output_frame s2 ≠ None)
  /\ (forall it, raises it = None -> output_frame (perform (Pass it) s1) ≠ None)
  /\ (snd (generate_image s1) = Ok None
      <-> existsb publishes [Query; Pass pass_1; Query] = false)
  /\ (existsb publishes [Query; Pass pass_1; Query] = true ->
      snd (generate_image s2) ≠ Ok None).
Proof.
  apply (slot_never_empty_again [Query; Pass pass_1; Query]
           [Query; Pass pass_2; Query; Query]).
Defined.

(** C8. The image [generate_image] returns refers to the array the slot
    was bound to.  Whatever operations follow, that array keeps its
    pixels: every later pass that completes binds the slot to an array
    allocated in that pass, different from the one handed out, and
    changes no array that existed before. *)
Theorem handed_frame_is_never_mutated (before after : list operation) (img : Image) :
  let s := perform_all before initial_state in
  let s1 := fst (generate_image s) in
  let t := perform_all after s1 in
  snd (generate_image s) = Ok (Some img) ->
  exists l F,
    value img = Some l /\ output_frame s = Some l
    /\ payload (Some img) s1 = Some F
    /\ payload (Some img) t = Some F
    /\ forall it, raises it = None ->
         payload (Some img) (perform (Pass it) t) = Some F
         /\ exists c, output_frame (perform (Pass it) t) = Some c
                      /\ (length (heap t) <= c)%nat /\ c ≠ l
                      /\ forall k, (k < length (heap t))%nat ->
                            heap (perform (Pass it) t) !! k = heap t !! k.
Proof.
  intros s s1 t Hg.
  pose proof (perform_all_between before initial_state between_initial) as [Hl Hw].
  fold s in Hl, Hw.
  destruct (generate_image_unlocked s Hl) as (s1' & Hg1 & Hh1 & Ho1 & Hl1 & _).
  assert (s1 = s1') as Es by (unfold s1; now rewrite Hg1).
  rewrite Hg1 in Hg. simpl in Hg. rewrite <- Es in *. clear Es s1' Hg1.
  destruct (output_frame s) as [l|] eqn:Ho; [|discriminate].
  injection Hg as <-.
  specialize (Hw l eq_refl).
  destruct (lookup_lt_is_Some_2 (heap s) l Hw) as [F HF].
  destruct (perform_all_heap after s1 Hl1) as [h Hh]. fold t in Hh.
  pose proof (perform_all_between after s1) as Bt. fold t in Bt.
  destruct Bt as [Hlt _].
  { split; [exact Hl1|]. intros k Hk. rewrite Hh1. rewrite Ho1 in Hk.
    injection Hk as <-. exact Hw. }
  assert (Hlen : (l < length (heap t))%nat).
  { rewrite Hh, length_app, Hh1. lia. }
  assert (Ht : heap t !! l = Some F).
  { rewrite Hh, lookup_app_l by (rewrite Hh1; exact Hw). now rewrite Hh1. }
  exists l, F. split; [reflexivity|]. split; [reflexivity|].
  split; [simpl; rewrite Hh1; exact HF|]. split; [exact Ht|].
  intros it Hr.
  destruct (perform_cases (Pass it) t Hlt) as (_ & _ & Hp).
  simpl publishes in Hp. rewrite Hr in Hp. destruct Hp as (F' & Mk' & ->).
  assert (Hold : forall k, (k < length (heap t))%nat ->
            heap (published F' Mk' t) !! k = heap t !! k).
  { intros k Hk. simpl. rewrite <- !app_assoc. apply lookup_app_l, Hk. }
  split.
  - change (heap (published F' Mk' t) !! l = Some F).
    rewrite (Hold l Hlen). exact Ht.
  - exists (S (S (length (heap t)))). split; [reflexivity|].
    split; [lia|]. split; [lia | exact Hold].
Qed.

Lemma handed_frame_is_never_mutated_witness :
  let s := perform_all [Pass pass_1] initial_state in
  let s1 := fst (generate_image s) in
  let t := perform_all [Pass pass_2; Query] s1 in
  exists l F,
    value (gr_Image (Some 2%nat) "Camera") = Some l /\ output_frame s = Some l
    /\ payload (Some (gr_Image (Some 2%nat) "Camera")) s1 = Some F
    /\ payload (Some (gr_Image (Some 2%nat) "Camera")) t = Some F
    /\ forall it, raises it = None ->
         payload (Some (gr_Image (Some 2%nat) "Camera")) (perform (Pass it) t) = Some F
         /\ exists c, output_frame (perform (Pass it) t) = Some c
                      /\ (length (heap t) <= c)%nat /\ c ≠ l
                      /\ forall k, (k < length (heap t))%nat ->
                            heap (perform (Pass it) t) !! k = heap t !! k.
Proof.
  apply (handed_frame_is_never_mutated [Pass pass_1] [Pass pass_2; Query]
           (gr_Image (Some 2%nat) "Camera")).
  reflexivity.
Defined.

(** * Exceptions in the loop *)

Lemma set_up_between (s : State) : between s -> between (set_up s).
Proof. intros [Hl Hw]. split; [exact Hl | exact Hw]. Qed.

(** The loop up to the pass that raises: the passes before it complete,
    the failing pass leaves the slot as they left it. *)
Lemma while_1_raises (its1 its2 : list iteration) (it : iteration) (e : exn) (s : State) :
  between s -> Forall (fun it => raises it = None) its1 -> raises it = Some e ->
  exists s',
    while_1 (its1 ++ it :: its2) s = (s', Raise e)
    /\ extends (perform_all (Pass <$> its1) s) s'
    /\ extends s s'
    /\ output_frame s' = output_frame (perform_all (Pass <$> its1) s)
    /\ slot_content s' = slot_content (perform_all (Pass <$> its1) s).
Proof.
  intros Hs Hall Hr.
  destruct (while_1_passes its1 s (proj1 Hs) Hall) as (_ & Hl1 & He1).
  pose proof (perform_all_between (Pass <$> its1) s Hs) as [_ Hw1].
  set (s1 := perform_all (Pass <$> its1) s) in *.
  destruct (loop_body_raises it e s1 Hl1 Hr) as (s' & Hb & Ho & He).
  exists s'. rewrite while_1_app by (auto; apply Hs). fold s1.
  change (while_1 (it :: its2) s1)
    with (bind (loop_body it) (fun _ => while_1 its2) s1).
  unfold bind. rewrite Hb.
  split; [reflexivity|]. split; [exact He|].
  split; [eapply extends_trans; eassumption|]. split; [exact Ho|].
  unfold slot_content. rewrite Ho.
  destruct (output_frame s1) as [l|] eqn:E; [|reflexivity].
  destruct He as ([h Hh] & _). rewrite Hh. apply lookup_app_l, Hw1, eq_refl.
Qed.

(** X11. The handler of lines 81-85, for the function on its own: when
    [KeyboardInterrupt] is raised inside the [try] by a statement of the
    loop (in [capture_array], in the background subtraction or inside the
    [with lock:] block), [video_processing] calls [camera.stop()] exactly
    once, as its last call, and then ends by raising: it raises
    [KeyboardInterrupt], after printing that the capture stopped,
    whenever [stop] itself returns. *)
Theorem interrupt_stops_camera_once
    (env : environment) (its1 its2 : list iteration) (it : iteration) (s : State) :
  setup_ok env -> between s ->
  frames env = its1 ++ it :: its2 ->
  Forall (fun it => raises it = None) its1 ->
  raises it = Some KeyboardInterrupt ->
  exists s' e cs,
    video_processing env s = (s', Raise e)
    /\ calls s' = calls s ++ (cs ++ [stop]) /\ (stop ∉ cs)
    /\ lock s' = false
    /\ (r_stop env = Returns tt ->
        e = KeyboardInterrupt /\ last (stdout s') = Some "Capture stopped.").
Proof.
  intros Hsetup Hs Hf Hall Hr.
  rewrite video_processing_set_up, Hf by exact Hsetup.
  destruct (while_1_raises its1 its2 it KeyboardInterrupt (set_up s)
              (set_up_between s Hs) Hall Hr) as (s' & Hw & _ & He & _).
  unfold try_except_KeyboardInterrupt. rewrite Hw.
  destruct (extends_set_up s s' He) as (_ & Hl & cs & Hc & _ & Hn).
  unfold tidy_up, bind, external, print, raise.
  destruct (r_stop env) as [[]|e] eqn:Hstop.
  - eexists _, KeyboardInterrupt, cs. split; [reflexivity|]. simpl.
    split; [rewrite Hc, app_assoc; reflexivity|]. split; [exact Hn|].
    split; [rewrite Hl; apply Hs|]. intros _. split; [reflexivity|].
    apply last_snoc.
  - eexists _, e, cs. split; [reflexivity|]. simpl.
    split; [rewrite Hc, app_assoc; reflexivity|]. split; [exact Hn|].
    split; [rewrite Hl; apply Hs | discriminate].
Qed.

Lemma interrupt_stops_camera_once_witness :
  exists s' e cs,
    video_processing (camera_with [pass_1; pass_interrupted; pass_2]) initial_state
      = (s', Raise e)
    /\ calls s' = calls initial_state ++ (cs ++ [stop]) /\ (stop ∉ cs)
    /\ lock s' = false
    /\ (r_stop (camera_with [pass_1; pass_interrupted; pass_2]) = Returns tt ->
        e = KeyboardInterrupt /\ last (stdout s') = Some "Capture stopped.").
Proof.
  apply (interrupt_stops_camera_once (camera_with [pass_1; pass_interrupted; pass_2])
           [pass_1] [pass_2] pass_interrupted initial_state).
  - repeat split.
  - exact between_initial.
  - reflexivity.
  - repeat constructor.
  - reflexivity.
Defined.

(** C6 as the code has it.  When a call of [capture_array] or of the
    background subtraction raises an error (anything but
    [KeyboardInterrupt]) in a pass of the loop, [video_processing] ends by
    raising that error: the pass is not skipped, no later pass runs and
    [camera.stop()] is not called.  The slot keeps the array the passes
    before had published, with its pixels. *)
Theorem error_ends_the_loop
    (env : environment) (its1 its2 : list iteration) (it : iteration)
    (name : string) (s : State) :
  setup_ok env -> between s ->
  frames env = its1 ++ it :: its2 ->
  Forall (fun it => raises it = None) its1 ->
  raises it = Some (Error name) ->
  exists s1 s',
    video_processing (with_frames its1 env) s = (s1, Pending)
    /\ video_processing env s = (s', Raise (Error name))
    /\ video_processing (with_frames (its1 ++ [it]) env) s = (s', Raise (Error name))
    /\ output_frame s' = output_frame s1
    /\ slot_content s' = slot_content s1
    /\ lock s' = false
    /\ exists cs, calls s' = calls s ++ cs /\ stop ∉ cs.
Proof.
  intros Hsetup Hs Hf Hall Hr.
  assert (Hsetup' : forall its, setup_ok (with_frames its env)) by (intros; exact Hsetup).
  rewrite !video_processing_set_up by auto. rewrite Hf. simpl frames.
  destruct (while_1_passes its1 (set_up s) (proj1 Hs) Hall) as (Hw1 & _ & _).
  destruct (while_1_raises its1 its2 it (Error name) (set_up s)
              (set_up_between s Hs) Hall Hr) as (s' & Hw & _ & He & Ho & Hc).
  destruct (while_1_raises its1 [] it (Error name) (set_up s)
              (set_up_between s Hs) Hall Hr) as (s'' & Hw' & _).
  assert (s'' = s') as ->.
  { rewrite !while_1_app in Hw, Hw' by (auto; apply Hs).
    change (while_1 (it :: its2) ?x) with (bind (loop_body it) (fun _ => while_1 its2) x) in Hw.
    change (while_1 [it] ?x) with (bind (loop_body it) (fun _ => while_1 []) x) in Hw'.
    unfold bind in Hw, Hw'.
    destruct (loop_body_raises it (Error name) (perform_all (Pass <$> its1) (set_up s)))
      as (s0 & Hb & _); auto.
    { apply (perform_all_between _ _ (set_up_between s Hs)). }
    rewrite Hb in Hw, Hw'. congruence. }
  unfold try_except_KeyboardInterrupt. rewrite Hw1, Hw, Hw'.
  destruct (extends_set_up s s' He) as (_ & Hl & cs & Hcs & _ & Hn).
  exists (perform_all (Pass <$> its1) (set_up s)), s'.
  repeat (split; [reflexivity || assumption|]).
  split; [rewrite Hl; apply Hs|]. exists cs. auto.
Qed.

Lemma error_ends_the_loop_witness :
  exists s1 s',
    video_processing (with_frames [pass_1]
                        (camera_with [pass_1; pass_capture_error; pass_2])) initial_state
      = (s1, Pending)
    /\ video_processing (camera_with [pass_1; pass_capture_error; pass_2]) initial_state
       = (s', Raise (Error "RuntimeError"))
    /\ video_processing (with_frames ([pass_1] ++ [pass_capture_error])
                          (camera_with [pass_1; pass_capture_error; pass_2])) initial_state
       = (s', Raise (Error "RuntimeError"))
    /\ output_frame s' = output_frame s1
    /\ slot_content s' = slot_content s1
    /\ lock s' = false
    /\ exists cs, calls s' = calls initial_state ++ cs /\ stop ∉ cs.
Proof.
  apply (error_ends_the_loop (camera_with [pass_1; pass_capture_error; pass_2])
           [pass_1] [pass_2] pass_capture_error "RuntimeError" initial_state).
  - repeat split.
  - exact between_initial.
  - reflexivity.
  - repeat constructor.
  - reflexivity.
Defined.

(** C6 as stated fails: the camera starts, the first pass publishes
    [frame_1], [capture_array] raises an error in the second pass and a
    third frame would be available.  The function ends with the error
    after two calls of [capture_array]; it neither goes on to the third
    frame nor calls [camera.stop()]. *)
Lemma capture_error_is_not_skipped :
  let run := video_processing (camera_with [pass_1; pass_capture_error; pass_2])
               initial_state in
  snd run = Raise (Error "RuntimeError")
  /\ snd run ≠ Pending
  /\ calls (fst run) =
       [Picamera2;
        create_video_configuration (1920, 1080) (640, 480) (33333, 33333);
        align_configuration; configure; start; createBackgroundSubtractorMOG2;
        capture_array; background_subtract_apply 0; capture_array]
  /\ slot_content (fst run) = Some frame_1.
Proof.
  vm_compute. repeat split; try reflexivity. discriminate.
Qed.

(** * Start-up *)

(** C2. [main] starts the video thread, sleeps for the grace interval,
    asks whether the thread is alive, and only then, and only if it is,
    launches the web interface that serves [generate_image].  If the
    thread has ended (as it has when the camera could not be opened),
    [main] prints that video processing is not possible and ends without
    any launch. *)
Theorem startup_gating (during_grace : environment) :
  let thread := video_processing during_grace
                  (add_call (sleep 1) (add_call Thread_start initial_state)) in
  let alive := thread_is_alive (snd thread) in
  let s' := fst (main during_grace initial_state) in
  snd (main during_grace initial_state) = Ok tt
  /\ (forall a, launch a ∈ calls s' -> alive = true)
  /\ (alive = true ->
      exists cs, calls s' = [Thread_start; sleep 1] ++ cs ++ [is_alive; launch "0.0.0.0"]
                 /\ forallb video_call cs = true)
  /\ (alive = false ->
      last (stdout s') = Some "Unable to do video processing!"
      /\ exists cs, calls s' = [Thread_start; sleep 1] ++ cs ++ [is_alive]
                    /\ forallb video_call cs = true)
  /\ (forall e, r_Picamera2 during_grace = Throws e -> alive = false).
Proof.
  intros thread alive s'.
  destruct (video_processing_calls during_grace
              (add_call (sleep 1) (add_call Thread_start initial_state)) eq_refl)
    as (cs & Hcs & Hv).
  fold thread in Hcs. simpl in Hcs.
  assert (Hmain : main during_grace initial_state =
            if alive
            then (add_call (launch "0.0.0.0")
                    (add_stdout "Starting web API (may take a while)."
                       (add_call is_alive (fst thread))), Ok tt)
            else (add_stdout "Unable to do video processing!"
                    (add_call is_alive (fst thread)), Ok tt)).
  { unfold main, bind, external, run_thread_while_sleeping, print. simpl.
    fold thread. destruct thread as [st r]. unfold alive. simpl.
    destruct (thread_is_alive r); reflexivity. }
  assert (Hfalse : alive = false ->
            exists cs0, calls s' = [Thread_start; sleep 1] ++ cs0 ++ [is_alive]
                        /\ forallb video_call cs0 = true).
  { intros Ha. exists cs. unfold s'. rewrite Hmain, Ha. simpl. rewrite Hcs. auto. }
  split; [rewrite Hmain; destruct alive; reflexivity|].
  split.
  { intros a Hin. destruct alive eqn:Ha; [reflexivity|].
    destruct (Hfalse eq_refl) as (cs0 & Hc0 & Hv0). rewrite Hc0 in Hin.
    rewrite !elem_of_app, !elem_of_cons in Hin.
    destruct Hin as [[|[|Hin]]|[Hin|[|Hin]]]; try discriminate.
    - inversion Hin.
    - exfalso. exact (video_call_not_launch cs0 a Hv0 Hin).
    - inversion Hin. }
  split.
  { intros Ha. exists cs. unfold s'. rewrite Hmain, Ha. simpl. rewrite Hcs.
    rewrite <- !app_assoc. auto. }
  split.
  { intros Ha. split; [|auto]. unfold s'. rewrite Hmain, Ha. simpl. apply last_snoc. }
  intros e He. unfold alive, thread.
  rewrite (video_processing_not_opened _ e _ He). reflexivity.
Qed.

Lemma startup_gating_witness :
  let thread := video_processing no_camera
                  (add_call (sleep 1) (add_call Thread_start initial_state)) in
  let alive := thread_is_alive (snd thread) in
  let s' := fst (main no_camera initial_state) in
  snd (main no_camera initial_state) = Ok tt
  /\ (forall a, launch a ∈ calls s' -> alive = true)
  /\ (alive = true ->
      exists cs, calls s' = [Thread_start; sleep 1] ++ cs ++ [is_alive; launch "0.0.0.0"]
                 /\ forallb video_call cs = true)
  /\ (alive = false ->
      last (stdout s') = Some "Unable to do video processing!"
      /\ exists cs, calls s' = [Thread_start; sleep 1] ++ cs ++ [is_alive]
                    /\ forallb video_call cs = true)
  /\ (forall e, r_Picamera2 no_camera = Throws e -> alive = false).
Proof. apply (startup_gating no_camera). Defined.

(** * Properties of the interleaving layer *)

Section Holders.

Lemma holders_cons (pc : reader_pc) (rs : list reader_pc) :
  holders (pc :: rs) = ((if reader_holds pc then 1 else 0) + holders rs)%nat.
Proof.
  unfold holders. rewrite filter_cons.
  destruct (reader_holds pc) eqn:E; case_decide; try congruence; reflexivity.
Qed.

Lemma holders_replicate_idle (n : nat) : holders (replicate n idle) = 0%nat.
Proof.
  induction n as [|n IH]; [reflexivity|].
  simpl replicate. rewrite holders_cons, IH. reflexivity.
Qed.

Lemma holders_insert (rs : list reader_pc) (i : nat) (pc pc' : reader_pc) :
  rs !! i = Some pc ->
  (holders (<[i := pc']> rs) + (if reader_holds pc then 1 else 0)
   = holders rs + (if reader_holds pc' then 1 else 0))%nat.
Proof.
  revert i. induction rs as [|r rs IH]; intros [|i] H; try discriminate.
  - injection H as ->. simpl. rewrite !holders_cons. lia.
  - simpl in H. simpl. rewrite !holders_cons. specialize (IH i H). lia.
Qed.

Lemma holders_none (rs : list reader_pc) (i : nat) (pc : reader_pc) :
  holders rs = 0%nat -> rs !! i = Some pc -> reader_holds pc = false.
Proof.
  revert i. induction rs as [|r rs IH]; intros [|i] H0 H; try discriminate.
  - injection H as ->. rewrite holders_cons in H0.
    destruct (reader_holds pc); [lia | reflexivity].
  - rewrite holders_cons in H0. apply (IH i); [lia | exact H].
Qed.

End Holders.

Section Invariant.

Lemma invariant_start (n : nat) : invariant (start_system n).
Proof.
  constructor; simpl; auto.
  - unfold lock_count. simpl. now rewrite holders_replicate_idle.
  - intros l px H. inversion H.
  - intros i H. apply lookup_replicate in H as [H _]. discriminate.
  - intros i r H. apply lookup_replicate in H as [H _]. discriminate.
Qed.

(** Printing and recording a call touch neither heap, slot nor lock. *)
Lemma invariant_log (s' : State) (sys : System) :
  heap s' = heap (shared sys) -> output_frame s' = output_frame (shared sys) ->
  lock s' = lock (shared sys) ->
  invariant sys -> invariant (with_shared s' sys).
Proof.
  intros Hh Ho Hl [I1 I2 I3 I4 I5 I6 I7].
  constructor; simpl; rewrite ?Hh, ?Ho, ?Hl; auto.
Qed.

Lemma invariant_video_raise (e : exn) (sys : System) :
  invariant sys -> invariant (video_raise e sys).
Proof.
  intros [I1 I2 I3 I4 I5 I6 I7]. unfold lock_count in I1.
  assert (Hv : video_holds (if e is KeyboardInterrupt then at_handler else ended e) = false)
    by (destruct e; reflexivity).
  constructor; unfold video_raise, lock_count; simpl; rewrite ?Hv.
  - destruct (video_holds (video sys)); simpl; [|exact I1].
    destruct (lock (shared sys)); lia.
  - destruct (video_holds (video sys)); exact I2.
  - destruct (video_holds (video sys)); exact I3.
  - destruct e; exact I.
  - destruct (video_holds (video sys)); exact I5.
  - destruct (video_holds (video sys)); exact I6.
  - exact I7.
Qed.

(** Allocation keeps what was allocated. *)
Lemma heap_kept (h : list ndarray) (a : ndarray) (l : nat) (px : option ndarray) :
  is_Some px /\ h !! l = px -> is_Some px /\ (h ++ [a]) !! l = px.
Proof.
  intros [Hs <-]. split; [exact Hs|].
  apply lookup_app_l, lookup_lt_is_Some, Hs.
Qed.

Lemma invariant_alloc (a : ndarray) (pc : video_pc) (sys : System) :
  video_holds pc = video_holds (video sys) ->
  match pc with
  | at_apply l | at_with l | at_copy l | at_assign l =>
      (l <= length (heap (shared sys)))%nat
  | _ => True
  end ->
  invariant sys ->
  invariant (with_video pc
               (with_shared (set_heap (heap (shared sys) ++ [a]) (shared sys)) sys)).
Proof.
  intros Hv Hpc [I1 I2 I3 I4 I5 I6 I7]. unfold lock_count in I1.
  constructor; unfold lock_count; simpl; rewrite ?Hv; auto.
  - intros l px H. apply heap_kept, I3, H.
  - rewrite length_app. simpl. destruct pc; auto; lia.
Qed.

Lemma invariant_video_step (r : response ndarray) (sys sys' : System) :
  invariant sys -> video_step r sys = Some sys' -> invariant sys'.
Proof.
  intros Inv Hstep. unfold video_step in Hstep.
  destruct (video sys) as [|frame|frame|frame|copy| | |e0] eqn:Hpc.
  - (* line 72 *)
    destruct r as [pixels|e]; injection Hstep as <-.
    + apply (invariant_alloc pixels (at_apply (length (heap (shared sys))))
               (with_shared (add_call capture_array (shared sys)) sys)).
      * simpl. now rewrite Hpc.
      * simpl. lia.
      * apply invariant_log; auto.
    + apply invariant_video_raise, invariant_log; auto.
  - (* line 74 *)
    destruct r as [pixels|e]; injection Hstep as <-.
    + apply (invariant_alloc pixels (at_with frame)
               (with_shared (add_call (background_subtract_apply frame) (shared sys)) sys)).
      * simpl. now rewrite Hpc.
      * simpl. pose proof (inv_video sys Inv) as H. rewrite Hpc in H. lia.
      * apply invariant_log; auto.
    + apply invariant_video_raise, invariant_log; auto.
  - (* line 78 *)
    destruct r as [pixels|e].
    + destruct (lock (shared sys)) eqn:Hl; [discriminate|]. injection Hstep as <-.
      destruct Inv as [I1 I2 I3 I4 I5 I6 I7]. unfold lock_count in I1.
      rewrite Hpc, Hl in *. simpl in I1.
      constructor; unfold lock_count; simpl; auto; lia.
    + injection Hstep as <-. now apply invariant_video_raise.
  - (* line 80, the copy *)
    destruct r as [pixels|e]; [|injection Hstep as <-; now apply invariant_video_raise].
    destruct (heap (shared sys) !! frame) as [a|] eqn:Ha; injection Hstep as <-.
    + apply (invariant_alloc a (at_assign (length (heap (shared sys)))) sys);
        simpl; auto. now rewrite Hpc.
    + now apply invariant_video_raise.
  - (* line 80, the assignment *)
    destruct r as [pixels|e]; injection Hstep as <-;
      [|now apply invariant_video_raise].
    destruct Inv as [I1 I2 I3 I4 I5 I6 I7]. unfold lock_count in I1.
    rewrite Hpc in *. simpl in I1.
    assert (Hnone : holders (readers sys) = 0%nat)
      by (destruct (lock (shared sys)); lia).
    constructor; unfold lock_count; simpl; auto.
    + intros l px H. apply elem_of_cons in H as [H|H]; [|auto].
      injection H as -> ->. split; [|reflexivity].
      apply lookup_lt_is_Some, I4.
    + intros i r Hi. pose proof (holders_none _ _ _ Hnone Hi). discriminate.
  - (* the end of the block *)
    destruct r as [pixels|e]; injection Hstep as <-;
      [|now apply invariant_video_raise].
    destruct Inv as [I1 I2 I3 I4 I5 I6 I7]. unfold lock_count in I1.
    rewrite Hpc in *. simpl in I1.
    constructor; unfold lock_count; simpl; auto.
    all: destruct (lock (shared sys)); lia.
  - (* line 83 *)
    destruct Inv as [I1 I2 I3 I4 I5 I6 I7]. unfold lock_count in I1.
    rewrite Hpc in *. simpl in I1.
    destruct r as [pixels|e]; injection Hstep as <-;
      constructor; unfold lock_count; simpl; auto.
  - discriminate.
Qed.

(** A caller moves from [pc] to [pc']; the others stay where they are. *)
Lemma other_readers (rs : list reader_pc) (i j : nat) (pc' pc0 : reader_pc) :
  <[i := pc']> rs !! j = Some pc0 -> pc0 ≠ pc' -> rs !! j = Some pc0.
Proof.
  intros H Hne. apply list_lookup_insert_Some in H as [(_ & -> & _)|[_ H]];
    [congruence | exact H].
Qed.

Lemma invariant_reader_step (i : nat) (sys sys' : System) :
  invariant sys -> reader_step i sys = Some sys' -> invariant sys'.
Proof.
  intros Inv Hstep. unfold reader_step in Hstep.
  destruct (readers sys !! i) as [pc|] eqn:Hi; [|discriminate].
  destruct Inv as [I1 I2 I3 I4 I5 I6 I7]. unfold lock_count in I1.
  destruct pc as [| | | |img|img].
  - (* the call begins *)
    injection Hstep as <-.
    pose proof (holders_insert _ i _ at_lock Hi) as Hh. simpl in Hh.
    constructor; unfold lock_count; simpl; auto.
    + lia.
    + intros j Hj. apply other_readers in Hj; [eauto | discriminate].
    + intros j r Hj. apply other_readers in Hj; [eauto | discriminate].
  - (* line 41 *)
    destruct (lock (shared sys)) eqn:Hl; [discriminate|]. injection Hstep as <-.
    pose proof (holders_insert _ i _ at_test Hi) as Hh. simpl in Hh.
    constructor; unfold lock_count; simpl; auto.
    + destruct (video_holds (video sys)); lia.
    + intros j Hj. apply other_readers in Hj; [eauto | discriminate].
    + intros j r Hj. apply other_readers in Hj; [eauto | discriminate].
  - (* line 43 *)
    destruct (output_frame (shared sys)) as [l|] eqn:Ho; injection Hstep as <-.
    + pose proof (holders_insert _ i _ at_build Hi) as Hh. simpl in Hh.
      constructor; unfold lock_count; simpl; rewrite ?Ho; auto.
      * lia.
      * intros j r Hj. apply other_readers in Hj; [|discriminate].
        rewrite (I6 j r Hj). rewrite ?Ho. reflexivity.
    + pose proof (holders_insert _ i _ (at_exit None) Hi) as Hh. simpl in Hh.
      constructor; unfold lock_count; simpl; rewrite ?Ho; auto.
      * lia.
      * intros j Hj. apply other_readers in Hj; [|discriminate].
        specialize (I5 j Hj). congruence.
      * intros j r Hj.
        apply list_lookup_insert_Some in Hj as [(_ & Hr & _)|[_ Hj]].
        -- now injection Hr as <-.
        -- rewrite (I6 j r Hj). rewrite ?Ho. reflexivity.
  - (* line 46 *)
    injection Hstep as <-.
    pose proof (holders_insert _ i _
      (at_exit (Some (gr_Image (output_frame (shared sys)) "Camera"))) Hi) as Hh.
    simpl in Hh.
    constructor; unfold lock_count; simpl; auto.
    + lia.
    + intros j Hj. apply other_readers in Hj; [eauto | discriminate].
    + intros j r Hj.
      apply list_lookup_insert_Some in Hj as [(_ & Hr & _)|[_ Hj]]; [|eauto].
      injection Hr as <-. specialize (I5 i Hi).
      destruct (output_frame (shared sys)); [reflexivity | congruence].
  - (* the end of the block *)
    injection Hstep as <-.
    pose proof (holders_insert _ i _ (returned img) Hi) as Hh. simpl in Hh.
    constructor; unfold lock_count; simpl; auto.
    + destruct (lock (shared sys)), (video_holds (video sys)); lia.
    + intros l px H. apply elem_of_cons in H as [H|H]; [discriminate | auto].
    + intros j Hj. apply other_readers in Hj; [eauto | discriminate].
    + intros j r Hj. apply other_readers in Hj; [eauto | discriminate].
    + split; [|exact I7]. rewrite <- I2. apply (I6 i img Hi).
  - (* line 48 *)
    injection Hstep as <-.
    pose proof (holders_insert _ i _ idle Hi) as Hh. simpl in Hh.
    constructor; unfold lock_count; simpl; auto.
    + lia.
    + intros j Hj. apply other_readers in Hj; [eauto | discriminate].
    + intros j r Hj. apply other_readers in Hj; [eauto | discriminate].
Qed.

Lemma invariant_run (schedule : list action) (sys sys' : System) :
  invariant sys -> run schedule sys = Some sys' -> invariant sys'.
Proof.
  revert sys. induction schedule as [|a rest IH]; intros sys Inv H; simpl in H.
  - now injection H as <-.
  - destruct (step a sys) as [sys1|] eqn:Hs; [|discriminate].
    apply (IH sys1); [|exact H].
    destruct a as [r|i]; simpl in Hs.
    + eapply invariant_video_step; eassumption.
    + eapply invariant_reader_step; eassumption.
Qed.

Lemma answers_consistent_split (newer older : list event) (i : nat) (r : option Image) :
  answers_consistent (newer ++ Answered i r :: older) ->
  r = image_of (fst <$> slot_after older).
Proof.
  induction newer as [|[l px|j q] newer IH]; simpl.
  - now intros [H _].
  - exact IH.
  - intros [_ H]. exact (IH H).
Qed.

End Invariant.

(** C9. In every state the video thread and any number of callers of
    [generate_image] reach by interleaving their steps, at most one of
    them is inside a [with lock:] block; and every answer a caller got is
    the one owed at the moment it left its block: [None] if no assignment
    of line 80 had completed before, and otherwise an image of the array
    of the latest completed assignment, which still holds the pixels it
    held when it was published. *)
Theorem no_torn_reads (n : nat) (schedule : list action) (sys : System) :
  run schedule (start_system n) = Some sys ->
  (lock_count sys <= 1)%nat
  /\ forall newer i r older,
       history sys = newer ++ Answered i r :: older ->
       r = image_of (fst <$> slot_after older)
       /\ forall l px, slot_after older = Some (l, px) ->
            exists F, px = Some F /\ heap (shared sys) !! l = Some F.
Proof.
  intros Hrun.
  pose proof (invariant_run schedule _ _ (invariant_start n) Hrun)
    as [I1 I2 I3 I4 I5 I6 I7].
  split; [rewrite <- I1; destruct (lock (shared sys)); lia|].
  intros newer i r older Hh. rewrite Hh in I7, I3.
  split; [exact (answers_consistent_split _ _ _ _ I7)|].
  intros l px Hs.
  assert (Hin : Published l px ∈ older).
  { clear -Hs. induction older as [|[l' px'|j q] older IH]; simpl in Hs.
    - discriminate.
    - injection Hs as -> ->. apply list_elem_of_here.
    - apply list_elem_of_further, IH, Hs. }
  destruct (I3 l px) as [[F ->] Hl].
  { rewrite elem_of_app. right. apply list_elem_of_further, Hin. }
  exists F. auto.
Qed.

Lemma no_torn_reads_witness :
  exists sys,
    run example_schedule (start_system 2) = Some sys
    /\ history sys = [Answered 1 (Some (gr_Image (Some 2%nat) "Camera"));
                      Published 2 (Some frame_1);
                      Answered 0 None]
    /\ (lock_count sys <= 1)%nat
    /\ forall newer i r older,
         history sys = newer ++ Answered i r :: older ->
         r = image_of (fst <$> slot_after older)
         /\ forall l px, slot_after older = Some (l, px) ->
              exists F, px = Some F /\ heap (shared sys) !! l = Some F.
Proof.
  destruct (run example_schedule (start_system 2)) as [sys|] eqn:H;
    [|vm_compute in H; discriminate].
  exists sys. split; [reflexivity|]. split.
  - pose proof H as H'. vm_compute in H'. injection H' as <-. reflexivity.
  - apply (no_torn_reads 2 example_schedule sys H).
Defined.

(** * The two layers agree *)

(** A caller that runs alone while the lock is free does what
    [generate_image] does. *)
Lemma call_schedule_generate_image (i : nat) (sys : System) :
  lock (shared sys) = false -> readers sys !! i = Some idle ->
  exists sys' r,
    run (call_schedule i (shared sys)) sys = Some sys'
    /\ generate_image (shared sys) = (shared sys', Ok r)
    /\ readers sys' !! i = Some (returned r)
    /\ video sys' = video sys.
Proof.
  intros Hl Hi. pose proof (lookup_lt_Some _ _ _ Hi) as Hlen.
  destruct sys as [s v rs h]. simpl in *.
  unfold call_schedule, generate_image, with_lock, print, read_output_frame, bind, ret.
  simpl. rewrite Hl.
  destruct (output_frame s) as [l|] eqn:Ho; simpl;
    unfold reader_step; simpl;
    repeat (rewrite ?Hi, ?Hl, ?Ho, ?list_lookup_insert_eq
              by (rewrite ?length_insert; exact Hlen); simpl);
    eexists _, _; (split; [reflexivity|]); simpl;
    rewrite ?list_lookup_insert_eq by (rewrite ?length_insert; exact Hlen);
    rewrite ?Ho; auto.
Qed.

(** The video thread, running one pass alone while the lock is free, does
    what [loop_body] does. *)
Lemma pass_schedule_loop_body (it : iteration) (sys : System) :
  lock (shared sys) = false -> video sys = at_capture ->
  exists sys',
    run (pass_schedule it) sys = Some sys'
    /\ shared sys' = fst (loop_body it (shared sys))
    /\ video sys' = video_after (snd (loop_body it (shared sys)))
    /\ readers sys' = readers sys.
Proof.
  intros Hl Hv. destruct sys as [s v rs h]. simpl in *. subst v.
  destruct (raises it) as [e|] eqn:Hr.
  - unfold raises in Hr. unfold pass_schedule. run.
    destruct (captured it) as [F|e1]; simpl.
    + destruct (subtracted it) as [Mk|e2]; simpl.
      * rewrite Hr, Hl. unfold video_step, video_raise. simpl. rewrite Hl. simpl.
        eexists. split; [reflexivity|]. simpl. destruct e; auto.
      * injection Hr as ->. unfold video_step, video_raise. simpl.
        eexists. split; [reflexivity|]. simpl. destruct e; auto.
    + injection Hr as ->. unfold video_step, video_raise. simpl.
      eexists. split; [reflexivity|]. simpl. destruct e; auto.
  - destruct (loop_body_completes it s Hl Hr) as (F & Mk & Hc & Hm & Hi & Hb).
    rewrite Hb. unfold pass_schedule. rewrite Hc, Hm, Hi.
    unfold run, step, video_step. simpl. rewrite Hl. simpl.
    rewrite lookup_frame. simpl.
    eexists. split; [reflexivity|]. simpl. split; [|auto].
    unfold published. rewrite !length_app. simpl.
    replace (length (heap s) + 1 + 1)%nat with (S (S (length (heap s)))) by lia.
    reflexivity.
Qed.

(** * Whole runs of [video_processing] *)

Section Fate.

Lemma setup_failure_None (env : environment) :
  setup_failure env = None -> setup_ok env.
Proof.
  unfold setup_failure, setup_ok.
  destruct (r_Picamera2 env) as [[]|]; [|discriminate].
  destruct (r_create_video_configuration env) as [[]|]; [|discriminate].
  destruct (r_align_configuration env) as [[]|]; [|discriminate].
  destruct (r_configure env) as [[]|]; [|discriminate].
  destruct (r_start env) as [[]|]; [|discriminate].
  destruct (r_createBackgroundSubtractorMOG2 env) as [[]|]; [|discriminate].
  auto 10.
Qed.

(** The set-up stops at the first call that raises: the exception leaves
    the function, and only printing and the calls made so far have
    happened. *)
Lemma video_processing_setup_failure (env : environment) (k : nat) (e : exn) (s : State) :
  setup_failure env = Some (k, e) ->
  exists s', video_processing env s = (s', Raise e)
             /\ heap s' = heap s /\ output_frame s' = output_frame s
             /\ lock s' = lock s
             /\ calls s' = calls s ++ take (S k) setup_calls.
Proof.
  unfold setup_failure, video_processing, bind, external, print.
  destruct (r_Picamera2 env) as [[]|e0].
  2:{ intros [= <- <-]. eexists. split; [reflexivity|]. simpl. auto. }
  destruct (r_create_video_configuration env) as [[]|e1].
  2:{ intros [= <- <-]. eexists. split; [reflexivity|]. simpl.
      rewrite <- ?app_assoc. auto. }
  destruct (r_align_configuration env) as [[]|e2].
  2:{ intros [= <- <-]. eexists. split; [reflexivity|]. simpl.
      rewrite <- ?app_assoc. auto. }
  destruct (r_configure env) as [[]|e3].
  2:{ intros [= <- <-]. eexists. split; [reflexivity|]. simpl.
      rewrite <- ?app_assoc. auto. }
  destruct (r_start env) as [[]|e4].
  2:{ intros [= <- <-]. eexists. split; [reflexivity|]. simpl.
      rewrite <- ?app_assoc. auto. }
  destruct (r_createBackgroundSubtractorMOG2 env) as [[]|e5].
  2:{ intros [= <- <-]. eexists. split; [reflexivity|]. simpl.
      rewrite <- ?app_assoc. auto. }
  discriminate.
Qed.

(** The loop ends with the exception of the first pass that raises, and
    goes on waiting when none does. *)
Lemma while_1_outcome (its : list iteration) (s : State) :
  lock s = false ->
  snd (while_1 its s) = match loop_failure its with
                        | Some e => Raise e
                        | None => Pending
                        end.
Proof.
  revert s. induction its as [|it rest IH]; intros s Hl; [reflexivity|].
  change (while_1 (it :: rest) s) with (bind (loop_body it) (fun _ => while_1 rest) s).
  unfold bind. simpl loop_failure.
  destruct (raises it) as [e|] eqn:Hr.
  - destruct (loop_body_raises it e s Hl Hr) as (s' & Hb & _). now rewrite Hb.
  - destruct (loop_body_completes it s Hl Hr) as (F & Mk & _ & _ & _ & Hb).
    rewrite Hb. apply IH. reflexivity.
Qed.

Lemma video_processing_outcome (env : environment) (s : State) :
  lock s = false -> snd (video_processing env s) = fate env.
Proof.
  intros Hl. unfold fate.
  destruct (setup_failure env) as [[k e]|] eqn:Hs.
  - destruct (video_processing_setup_failure env k e s Hs) as (s' & Hv & _).
    now rewrite Hv.
  - rewrite video_processing_set_up by (apply setup_failure_None, Hs).
    unfold try_except_KeyboardInterrupt.
    pose proof (while_1_outcome (frames env) (set_up s) Hl) as Hw.
    destruct (while_1 (frames env) (set_up s)) as [s' r]. simpl in Hw. subst r.
    destruct (loop_failure (frames env)) as [[|name]|]; try reflexivity.
    unfold tidy_up, bind, external, print, raise.
    destruct (r_stop env) as [[]|e]; reflexivity.
Qed.

End Fate.

(** X1. [video_processing] never returns: after the answers of the
    environment it is still in the loop exactly when no call of the
    set-up and no pass raised, and otherwise it has ended by raising the
    first exception ([KeyboardInterrupt] in the loop being replaced by
    the exception of [camera.stop()] when that call raises). *)
Theorem video_processing_fate (env : environment) (s : State) :
  lock s = false ->
  snd (video_processing env s) = fate env
  /\ (forall a, snd (video_processing env s) ≠ Ok a)
  /\ (snd (video_processing env s) = Pending
      <-> setup_failure env = None /\ loop_failure (frames env) = None).
Proof.
  intros Hl. rewrite (video_processing_outcome env s Hl). unfold fate.
  split; [reflexivity|].
  destruct (setup_failure env) as [[k e]|].
  - split; [discriminate|]. split; [discriminate | intros [? _]; discriminate].
  - destruct (loop_failure (frames env)) as [[|name]|].
    + destruct (r_stop env) as [[]|e];
        (split; [discriminate|]); (split; [discriminate | intros [_ ?]; discriminate]).
    + split; [discriminate|]. split; [discriminate | intros [_ ?]; discriminate].
    + split; [discriminate|]. split; auto.
Qed.

Lemma video_processing_fate_witness :
  snd (video_processing (camera_with [pass_1; pass_interrupted; pass_2]) initial_state)
    = Raise KeyboardInterrupt
  /\ (forall a, snd (video_processing (camera_with [pass_1; pass_interrupted; pass_2])
                      initial_state) ≠ Ok a)
  /\ (snd (video_processing (camera_with [pass_1; pass_interrupted; pass_2]) initial_state)
        = Pending
      <-> setup_failure (camera_with [pass_1; pass_interrupted; pass_2]) = None
          /\ loop_failure (frames (camera_with [pass_1; pass_interrupted; pass_2])) = None).
Proof.
  apply (video_processing_fate (camera_with [pass_1; pass_interrupted; pass_2])
           initial_state).
  reflexivity.
Defined.

(** X2. When a call of the set-up raises (be it [KeyboardInterrupt]),
    [video_processing] ends with that exception before the [try] is
    entered: the calls made are the calls of the set-up up to the failing
    one, so neither [capture_array] nor [camera.stop()] is called, and
    heap, slot and lock are as before. *)
Theorem setup_failure_skips_the_handler
    (env : environment) (k : nat) (e : exn) (s : State) :
  setup_failure env = Some (k, e) ->
  exists s', video_processing env s = (s', Raise e)
             /\ heap s' = heap s /\ output_frame s' = output_frame s
             /\ lock s' = lock s
             /\ calls s' = calls s ++ take (S k) setup_calls
             /\ (stop ∉ take (S k) setup_calls)
             /\ capture_array ∉ take (S k) setup_calls.
Proof.
  intros Hs.
  destruct (video_processing_setup_failure env k e s Hs) as (s' & Hv & Hh & Ho & Hl & Hc).
  exists s'. repeat (split; [assumption|]).
  assert (Hsub : forall c, c ∈ take (S k) setup_calls -> c ∈ setup_calls).
  { intros c Hin. rewrite <- (take_drop (S k) setup_calls). apply elem_of_app. auto. }
  split; intros Hin; apply Hsub in Hin; unfold setup_calls in Hin;
    repeat (apply elem_of_cons in Hin as [Hin|Hin]; [discriminate|]);
    inversion Hin.
Qed.

(** A camera whose [start] is interrupted. *)
Lemma setup_failure_skips_the_handler_witness :
  exists s',
    video_processing
      {| r_Picamera2 := Returns tt; r_create_video_configuration := Returns tt;
         r_align_configuration := Returns tt; r_configure := Returns tt;
         r_start := Throws KeyboardInterrupt;
         r_createBackgroundSubtractorMOG2 := Returns tt;
         frames := [pass_1]; r_stop := Returns tt |} initial_state
      = (s', Raise KeyboardInterrupt)
    /\ heap s' = heap initial_state /\ output_frame s' = output_frame initial_state
    /\ lock s' = lock initial_state
    /\ calls s' = calls initial_state ++ take 5 setup_calls
    /\ (stop ∉ take 5 setup_calls)
    /\ capture_array ∉ take 5 setup_calls.
Proof.
  apply (setup_failure_skips_the_handler
           {| r_Picamera2 := Returns tt; r_create_video_configuration := Returns tt;
              r_align_configuration := Returns tt; r_configure := Returns tt;
              r_start := Throws KeyboardInterrupt;
              r_createBackgroundSubtractorMOG2 := Returns tt;
              frames := [pass_1]; r_stop := Returns tt |} 4 KeyboardInterrupt initial_state).
  reflexivity.
Defined.

Section Protocol.

Lemma follows_app (ph : phase) (cs1 cs2 : list call) :
  follows ph (cs1 ++ cs2) = ph' ← follows ph cs1; follows ph' cs2.
Proof.
  revert ph. induction cs1 as [|c cs1 IH]; intros ph; [reflexivity|].
  simpl. destruct (advance ph c); [apply IH | reflexivity].
Qed.

Lemma setup_failure_bound (env : environment) (k : nat) (e : exn) :
  setup_failure env = Some (k, e) -> (k < 6)%nat.
Proof.
  unfold setup_failure.
  destruct (r_Picamera2 env); [|intros [= <- _]; lia].
  destruct (r_create_video_configuration env); [|intros [= <- _]; lia].
  destruct (r_align_configuration env); [|intros [= <- _]; lia].
  destruct (r_configure env); [|intros [= <- _]; lia].
  destruct (r_start env); [|intros [= <- _]; lia].
  destruct (r_createBackgroundSubtractorMOG2 env); [|intros [= <- _]; lia].
  discriminate.
Qed.

(** The calls of a pass that raises: [capture_array] alone, or followed
    by the subtraction of the frame it returned. *)
Lemma loop_body_raises_calls (it : iteration) (e : exn) (s : State) :
  lock s = false -> raises it = Some e ->
  calls (fst (loop_body it s)) = calls s ++ [capture_array]
  \/ calls (fst (loop_body it s))
     = calls s ++ [capture_array; background_subtract_apply (length (heap s))].
Proof.
  intros Hl Hr. unfold raises in Hr. run.
  destruct (captured it) as [F|e1]; [|left; reflexivity].
  destruct (subtracted it) as [Mk|e2]; simpl.
  - rewrite Hr, Hl. simpl. right. now rewrite <- app_assoc.
  - right. now rewrite <- app_assoc.
Qed.

Lemma while_1_follows (its : list iteration) (s : State) :
  lock s = false ->
  exists cs ph,
    calls (fst (while_1 its s)) = calls s ++ cs
    /\ follows capturing cs = Some ph
    /\ (ph = capturing \/ ph = subtracting).
Proof.
  revert s. induction its as [|it rest IH]; intros s Hl.
  - exists [], capturing. simpl. rewrite app_nil_r. auto.
  - change (while_1 (it :: rest) s) with (bind (loop_body it) (fun _ => while_1 rest) s).
    unfold bind. destruct (raises it) as [e|] eqn:Hr.
    + pose proof (loop_body_raises_calls it e s Hl Hr) as Hc.
      destruct (loop_body_raises it e s Hl Hr) as (s' & Hb & _).
      rewrite Hb in Hc |- *. simpl in Hc |- *. destruct Hc as [Hc|Hc].
      * exists [capture_array], subtracting. auto.
      * eexists _, capturing. split; [exact Hc|]. auto.
    + destruct (loop_body_completes it s Hl Hr) as (F & Mk & _ & _ & _ & Hb).
      rewrite Hb.
      destruct (IH (published F Mk s) eq_refl) as (cs & ph & Hc & Hf & Hph).
      exists ([capture_array; background_subtract_apply (length (heap s))] ++ cs), ph.
      split; [|split; [exact Hf | exact Hph]].
      rewrite Hc. simpl. rewrite <- !app_assoc. reflexivity.
Qed.

End Protocol.

(** X3. Whatever the environment answers, the calls [video_processing]
    makes on the camera and on the background subtractor come in the one
    admissible order: the calls of the set-up in sequence, then
    [capture_array] and the subtraction in turns, then at most one
    [stop], and nothing after it. *)
Theorem calls_follow_the_protocol (env : environment) (s : State) :
  lock s = false ->
  exists cs ph,
    calls (fst (video_processing env s)) = calls s ++ cs
    /\ follows (before 0) cs = Some ph.
Proof.
  intros Hl. destruct (setup_failure env) as [[k e]|] eqn:Hs.
  - destruct (video_processing_setup_failure env k e s Hs) as (s' & Hv & _ & _ & _ & Hc).
    rewrite Hv. simpl fst. exists (take (S k) setup_calls).
    pose proof (setup_failure_bound env k e Hs) as Hk.
    do 6 (destruct k as [|k]; [eexists; split; [exact Hc | reflexivity]|]). lia.
  - rewrite video_processing_set_up by (apply setup_failure_None, Hs).
    unfold try_except_KeyboardInterrupt.
    destruct (while_1_follows (frames env) (set_up s) Hl) as (cs & ph & Hc & Hf & Hph).
    assert (Hall : follows (before 0) (setup_calls ++ cs) = Some ph)
      by (rewrite follows_app; exact Hf).
    assert (Hstop : follows (before 0) ((setup_calls ++ cs) ++ [stop]) = Some stopped).
    { rewrite follows_app, Hall. destruct Hph as [-> | ->]; reflexivity. }
    assert (Hcalls : calls (set_up s) = calls s ++ setup_calls).
    { simpl. rewrite <- !app_assoc. reflexivity. }
    rewrite Hcalls, <- app_assoc in Hc.
    destruct (while_1 (frames env) (set_up s)) as [s' r]. simpl in Hc.
    destruct r as [a|[|name]|]; simpl.
    + exists (setup_calls ++ cs), ph. auto.
    + exists ((setup_calls ++ cs) ++ [stop]), stopped. split; [|exact Hstop].
      unfold tidy_up, bind, external, print, raise.
      destruct (r_stop env) as [[]|e]; simpl; rewrite Hc, <- !app_assoc; reflexivity.
    + exists (setup_calls ++ cs), ph. auto.
    + exists (setup_calls ++ cs), ph. auto.
Qed.

Lemma calls_follow_the_protocol_witness :
  exists cs ph,
    calls (fst (video_processing (camera_with [pass_1; pass_interrupted; pass_2])
                  initial_state)) = calls initial_state ++ cs
    /\ follows (before 0) cs = Some ph.
Proof.
  apply (calls_follow_the_protocol (camera_with [pass_1; pass_interrupted; pass_2])
           initial_state).
  reflexivity.
Defined.

(** * Queries against whole runs *)

Section Runs.

Lemma perform_all_app (ops1 ops2 : list operation) (s : State) :
  perform_all (ops1 ++ ops2) s = perform_all ops2 (perform_all ops1 s).
Proof. unfold perform_all. apply foldl_app. Qed.

(** Calls of [generate_image] leave heap and slot alone and the lock
    free, however many there are. *)
Lemma queries_keep_state (n : nat) (s : State) :
  lock s = false ->
  heap (perform_all (replicate n Query) s) = heap s
  /\ output_frame (perform_all (replicate n Query) s) = output_frame s
  /\ lock (perform_all (replicate n Query) s) = false.
Proof.
  revert s. induction n as [|n IH]; intros s Hl; [auto|].
  destruct (generate_image_unlocked s Hl) as (s' & Hg & Hh & Ho & Hl' & _).
  change (perform_all (replicate (S n) Query) s)
    with (perform_all (replicate n Query) (fst (generate_image s))).
  rewrite Hg. simpl fst. destruct (IH s' Hl') as (H1 & H2 & H3).
  repeat split; congruence.
Qed.

(** The loop leaves the state as some of its passes, run as operations,
    leave it: the lock free and the slot, if bound, referring to an
    allocated array. *)
Lemma while_1_between (its : list iteration) (s : State) :
  between s -> between (fst (while_1 its s)).
Proof.
  revert s. induction its as [|it rest IH]; intros s Hs; [exact Hs|].
  change (while_1 (it :: rest) s) with (bind (loop_body it) (fun _ => while_1 rest) s).
  unfold bind. pose proof (perform_between (Pass it) s Hs) as Hb. simpl in Hb.
  destruct (loop_body it s) as [s1 [[]|e|]]; simpl in *; auto.
Qed.

Lemma video_processing_between (env : environment) (s : State) :
  between s -> between (fst (video_processing env s)).
Proof.
  intros Hs. destruct (setup_failure env) as [[k e]|] eqn:Hf.
  - destruct (video_processing_setup_failure env k e s Hf)
      as (s' & Hv & Hh & Ho & Hl & _).
    rewrite Hv. simpl. destruct Hs as [Hl0 Hw]. split; [congruence|].
    intros l Hl1. rewrite Hh. apply Hw. congruence.
  - rewrite video_processing_set_up by (apply setup_failure_None, Hf).
    unfold try_except_KeyboardInterrupt.
    pose proof (while_1_between (frames env) (set_up s) (set_up_between s Hs)) as Hb.
    destruct (while_1 (frames env) (set_up s)) as [s' r]. simpl in Hb.
    destruct r as [a|[|name]|]; simpl; try exact Hb.
    unfold tidy_up, bind, external, print, raise.
    destruct (r_stop env) as [[]|e]; simpl; exact Hb.
Qed.

End Runs.

(** X4. After any number of passes that all complete, the slot holds the
    pixels of the frame captured last, and [generate_image] returns an
    image with exactly these pixels: frames captured earlier are not
    served. *)
Theorem last_frame_wins (its : list iteration) (it : iteration) (F : ndarray) (s : State) :
  lock s = false ->
  Forall (fun it => raises it = None) (its ++ [it]) ->
  captured it = Returns F ->
  exists s' t img,
    while_1 (its ++ [it]) s = (s', Pending)
    /\ slot_content s' = Some F
    /\ generate_image s' = (t, Ok (Some img))
    /\ payload (Some img) t = Some F.
Proof.
  intros Hl Hall Hc.
  destruct (while_1_passes (its ++ [it]) s Hl Hall) as (Hw & Hl' & _).
  apply Forall_app in Hall as [Hits Hit]. inversion Hit as [|? ? Hr _]; subst.
  destruct (while_1_passes its s Hl Hits) as (_ & Hl1 & _).
  rewrite fmap_app, perform_all_app in Hw, Hl'.
  set (s1 := perform_all (Pass <$> its) s) in *.
  destruct (loop_body_completes it s1 Hl1 Hr) as (F' & Mk & Hc' & _ & _ & Hb).
  assert (F' = F) as -> by congruence.
  assert (Hlast : perform_all (Pass <$> [it]) s1 = published F Mk s1)
    by (unfold perform_all; simpl; now rewrite Hb).
  rewrite Hlast in Hw, Hl'.
  destruct (generate_image_unlocked (published F Mk s1) eq_refl)
    as (t & Hg & Hh & _).
  exists (published F Mk s1), t, (gr_Image (Some (S (S (length (heap s1))))) "Camera").
  split; [exact Hw|]. split; [apply published_slot_content|].
  split; [exact Hg|]. simpl. rewrite Hh. apply (published_slot_content F Mk s1).
Qed.

Lemma last_frame_wins_witness :
  exists s' t img,
    while_1 ([pass_1; pass_2; pass_1] ++ [pass_2]) initial_state = (s', Pending)
    /\ slot_content s' = Some frame_2
    /\ generate_image s' = (t, Ok (Some img))
    /\ payload (Some img) t = Some frame_2.
Proof.
  apply (last_frame_wins [pass_1; pass_2; pass_1] pass_2 frame_2 initial_state).
  - reflexivity.
  - repeat constructor.
  - reflexivity.
Defined.

(** X5. Wherever [video_processing] stands or has ended (waiting for the
    camera, ended by an error, interrupted), it does not hold the lock,
    and every later call of [generate_image] completes and returns the
    image of the array the slot was last bound to, with its pixels ([None]
    if nothing was ever published): the last frame is served for good. *)
Theorem last_frame_is_served_for_good (env : environment) (s : State) (n : nat) :
  between s ->
  let s' := fst (video_processing env s) in
  let t := perform_all (replicate n Query) s' in
  lock s' = false
  /\ exists t', generate_image t = (t', Ok (image_of (output_frame s')))
                /\ payload (image_of (output_frame s')) t' = slot_content s'
                /\ (output_frame s' ≠ None -> slot_content s' ≠ None).
Proof.
  intros Hs s' t.
  pose proof (video_processing_between env s Hs) as [Hl Hw]. fold s' in Hl, Hw.
  destruct (queries_keep_state n s' Hl) as (Hh & Ho & Hlt). fold t in Hh, Ho, Hlt.
  destruct (generate_image_unlocked t Hlt) as (t' & Hg & Hh' & _).
  split; [exact Hl|]. exists t'. rewrite Ho in Hg. split; [exact Hg|].
  unfold slot_content, payload. rewrite Hh', Hh.
  destruct (output_frame s') as [l|]; simpl; [|split; [reflexivity | congruence]].
  split; [reflexivity|]. intros _.
  destruct (lookup_lt_is_Some_2 (heap s') l (Hw l eq_refl)) as [F ->]. discriminate.
Qed.

Lemma last_frame_is_served_for_good_witness :
  let s' := fst (video_processing (camera_with [pass_1; pass_capture_error; pass_2])
                   initial_state) in
  let t := perform_all (replicate 3 Query) s' in
  lock s' = false
  /\ exists t', generate_image t = (t', Ok (image_of (output_frame s')))
                /\ payload (image_of (output_frame s')) t' = slot_content s'
                /\ (output_frame s' ≠ None -> slot_content s' ≠ None).
Proof.
  apply (last_frame_is_served_for_good
           (camera_with [pass_1; pass_capture_error; pass_2]) initial_state 3).
  exact between_initial.
Defined.

(** * The lock under interleaving *)

Section Lock.

Lemma holders_some (rs : list reader_pc) :
  (0 < holders rs)%nat ->
  exists j pc, rs !! j = Some pc /\ reader_holds pc = true.
Proof.
  induction rs as [|r rs IH]; [unfold holders; simpl; lia|].
  rewrite holders_cons. destruct (reader_holds r) eqn:Hr.
  - intros _. exists 0%nat, r. auto.
  - intros H. destruct IH as (j & pc & Hj & Hpc); [simpl in H; lia|].
    exists (S j), pc. auto.
Qed.

Lemma video_holder_steps (r : response ndarray) (sys : System) :
  video_holds (video sys) = true -> is_Some (video_step r sys).
Proof.
  unfold video_step. destruct (video sys); try discriminate; intros _.
  - destruct r; [destruct (heap (shared sys) !! frame)|]; eauto.
  - destruct r; eauto.
  - destruct r; eauto.
Qed.

Lemma reader_holder_steps (j : nat) (pc : reader_pc) (sys : System) :
  readers sys !! j = Some pc -> reader_holds pc = true ->
  is_Some (reader_step j sys).
Proof.
  intros Hj Hpc. unfold reader_step. rewrite Hj.
  destruct pc; try discriminate; eauto.
  destruct (output_frame (shared sys)); eauto.
Qed.

(** In a state the system reaches, a held lock has a holder, and the
    holder can move. *)
Lemma held_lock_has_holder (sys : System) :
  invariant sys -> lock (shared sys) = true -> holder_can_step sys.
Proof.
  intros [I1 _ _ _ _ _ _] Hl. unfold lock_count in I1. rewrite Hl in I1.
  destruct (video_holds (video sys)) eqn:Hv.
  - left. split; [exact Hv|]. intros r. now apply video_holder_steps.
  - right. destruct (holders_some (readers sys)) as (j & pc & Hj & Hpc); [lia|].
    exists j, pc. split; [exact Hj|]. split; [exact Hpc|].
    eapply reader_holder_steps; eassumption.
Qed.

Lemma video_step_blocked (r : response ndarray) (sys : System) :
  video_step r sys = None ->
  (exists e, video sys = ended e)
  \/ (exists frame, video sys = at_with frame) /\ lock (shared sys) = true.
Proof.
  unfold video_step. destruct (video sys) as [|f|f|f|c| | |e]; destruct r;
    try discriminate; eauto.
  - destruct (lock (shared sys)); [eauto | discriminate].
  - destruct (heap (shared sys) !! f); discriminate.
Qed.

End Lock.

(** X6. In every state the video thread and the callers reach by
    interleaving, a thread that cannot move is a caller at line 41 or the
    video thread at line 78 (or the video thread after it has ended), and
    then the lock is held by a thread that can move: a thread that ended
    never keeps the lock, and no state is a deadlock on the lock. *)
Theorem no_deadlock_on_the_lock (n : nat) (schedule : list action) (sys : System) :
  run schedule (start_system n) = Some sys ->
  (forall i pc, readers sys !! i = Some pc -> reader_step i sys = None ->
     pc = at_lock /\ holder_can_step sys)
  /\ (forall r, video_step r sys = None ->
        (exists e, video sys = ended e)
        \/ ((exists frame, video sys = at_with frame) /\ holder_can_step sys))
  /\ (forall e, video sys = ended e \/ video sys = at_handler ->
        lock (shared sys) = true ->
        exists j pc, readers sys !! j = Some pc /\ reader_holds pc = true
                     /\ is_Some (reader_step j sys)).
Proof.
  intros Hrun.
  pose proof (invariant_run schedule _ _ (invariant_start n) Hrun) as Inv.
  split; [|split].
  - intros i pc Hi Hstep.
    destruct (reader_step_blocked i pc sys Hi Hstep) as [-> Hl].
    split; [reflexivity | now apply held_lock_has_holder].
  - intros r Hstep. destruct (video_step_blocked r sys Hstep) as [He|[Hw Hl]];
      [left; exact He | right]. split; [exact Hw | now apply held_lock_has_holder].
  - intros e Hv Hl. destruct (held_lock_has_holder sys Inv Hl) as [[Hh _]|H];
      [|exact H]. destruct Hv as [Hv|Hv]; rewrite Hv in Hh; discriminate.
Qed.

Lemma no_deadlock_on_the_lock_witness :
  exists sys,
    run (take 8 example_schedule) (start_system 2) = Some sys
    /\ reader_step 1 sys = None
    /\ (forall i pc, readers sys !! i = Some pc -> reader_step i sys = None ->
          pc = at_lock /\ holder_can_step sys)
    /\ (forall r, video_step r sys = None ->
          (exists e, video sys = ended e)
          \/ ((exists frame, video sys = at_with frame) /\ holder_can_step sys))
    /\ (forall e, video sys = ended e \/ video sys = at_handler ->
          lock (shared sys) = true ->
          exists j pc, readers sys !! j = Some pc /\ reader_holds pc = true
                       /\ is_Some (reader_step j sys)).
Proof.
  destruct (run (take 8 example_schedule) (start_system 2)) as [sys|] eqn:H;
    [|vm_compute in H; discriminate].
  exists sys. split; [reflexivity|]. split.
  - pose proof H as H'. vm_compute in H'. injection H' as <-. reflexivity.
  - apply (no_deadlock_on_the_lock 2 (take 8 example_schedule) sys H).
Defined.

Section ReadOnly.

Lemma reader_step_read_only (i : nat) (sys sys' : System) :
  reader_step i sys = Some sys' ->
  heap (shared sys') = heap (shared sys)
  /\ output_frame (shared sys') = output_frame (shared sys)
  /\ calls (shared sys') = calls (shared sys)
  /\ video sys' = video sys
  /\ length (readers sys') = length (readers sys).
Proof.
  unfold reader_step. destruct (readers sys !! i) as [pc|]; [|discriminate].
  assert (Hdone : forall pc' s,
            heap s = heap (shared sys) -> output_frame s = output_frame (shared sys) ->
            calls s = calls (shared sys) ->
            heap (shared (with_reader i pc' (with_shared s sys))) = heap (shared sys)
            /\ output_frame (shared (with_reader i pc' (with_shared s sys)))
               = output_frame (shared sys)
            /\ calls (shared (with_reader i pc' (with_shared s sys))) = calls (shared sys)
            /\ video (with_reader i pc' (with_shared s sys)) = video sys
            /\ length (readers (with_reader i pc' (with_shared s sys)))
               = length (readers sys)).
  { intros pc' s H1 H2 H3. simpl. rewrite length_insert. auto. }
  destruct pc.
  - intros [= <-]. apply Hdone; reflexivity.
  - destruct (lock (shared sys)); [discriminate|]. intros [= <-]. apply Hdone; reflexivity.
  - destruct (output_frame (shared sys)) eqn:Ho; intros [= <-].
    + apply Hdone; auto.
    + simpl. rewrite length_insert. auto.
  - intros [= <-]. apply Hdone; reflexivity.
  - intros [= <-]. simpl. rewrite length_insert. auto.
  - intros [= <-]. simpl. rewrite length_insert. auto.
Qed.

End ReadOnly.

(** X7. However the steps of any number of callers of [generate_image]
    are interleaved, as long as the video thread takes no step they
    allocate no array, leave [output_frame] as it is, call nothing on
    the camera and do not move the video thread. *)
Theorem callers_are_read_only (schedule : list action) (sys sys' : System) :
  forallb is_reader schedule = true ->
  run schedule sys = Some sys' ->
  heap (shared sys') = heap (shared sys)
  /\ output_frame (shared sys') = output_frame (shared sys)
  /\ calls (shared sys') = calls (shared sys)
  /\ video sys' = video sys
  /\ length (readers sys') = length (readers sys).
Proof.
  revert sys. induction schedule as [|a rest IH]; intros sys Hall Hrun; simpl in *.
  - injection Hrun as <-. auto 10.
  - apply andb_true_iff in Hall as [Ha Hrest].
    destruct a as [r|i]; [simpl in Ha; discriminate|]. simpl in Hrun.
    destruct (reader_step i sys) as [sys1|] eqn:Hs; [|discriminate].
    destruct (reader_step_read_only i sys sys1 Hs) as (H1 & H2 & H3 & H4 & H5).
    destruct (IH sys1 Hrest Hrun) as (G1 & G2 & G3 & G4 & G5).
    repeat split; congruence.
Qed.

Lemma callers_are_read_only_witness :
  exists sys',
    run [Reader 0; Reader 1; Reader 1; Reader 1; Reader 1; Reader 0; Reader 0]
        (start_system 2) = Some sys'
    /\ heap (shared sys') = heap (shared (start_system 2))
    /\ output_frame (shared sys') = output_frame (shared (start_system 2))
    /\ calls (shared sys') = calls (shared (start_system 2))
    /\ video sys' = video (start_system 2)
    /\ length (readers sys') = length (readers (start_system 2)).
Proof.
  destruct (run [Reader 0; Reader 1; Reader 1; Reader 1; Reader 1; Reader 0; Reader 0]
              (start_system 2)) as [sys'|] eqn:H;
    [|vm_compute in H; discriminate].
  exists sys'. split; [reflexivity|].
  apply (callers_are_read_only
           [Reader 0; Reader 1; Reader 1; Reader 1; Reader 1; Reader 0; Reader 0]
           (start_system 2) sys'); [reflexivity | exact H].
Defined.

Section CriticalSections.

Lemma video_raise_releases (e : exn) (sys : System) :
  video_holds (video sys) = true ->
  lock (shared (video_raise e sys)) = false
  /\ video_holds (video (video_raise e sys)) = false.
Proof.
  intros Hv. unfold video_raise. rewrite Hv. simpl. split; [reflexivity|].
  destruct e; reflexivity.
Qed.

Lemma video_leaves_from_release (r : response ndarray) (sys : System) :
  video sys = at_release ->
  exists sys', video_step r sys = Some sys'
               /\ lock (shared sys') = false /\ video_holds (video sys') = false.
Proof.
  intros Hpc. unfold video_step. rewrite Hpc. destruct r as [a|e].
  - eexists. split; [reflexivity|]. auto.
  - eexists. split; [reflexivity|]. apply video_raise_releases. now rewrite Hpc.
Qed.

Lemma video_leaves_from_assign (r2 r3 : response ndarray) (copy : nat) (sys : System) :
  video sys = at_assign copy ->
  exists k sys', (k <= 2)%nat /\ run (take k [Video r2; Video r3]) sys = Some sys'
                 /\ lock (shared sys') = false /\ video_holds (video sys') = false.
Proof.
  intros Hpc. destruct r2 as [a|e].
  - destruct (video_leaves_from_release r3
                (record (Published copy (heap (shared sys) !! copy))
                   (with_video at_release
                      (with_shared (set_output_frame (Some copy) (shared sys)) sys))))
      as (sys' & Hs & Hl & Hv); [reflexivity|].
    exists 2%nat, sys'. split; [lia|]. split; [|auto].
    simpl. unfold video_step at 1. rewrite Hpc. now rewrite Hs.
  - exists 1%nat. eexists. split; [lia|]. split.
    + simpl. unfold video_step. rewrite Hpc. reflexivity.
    + apply video_raise_releases. now rewrite Hpc.
Qed.

End CriticalSections.

(** X8. Once the video thread is inside the [with lock:] block of line
    78, at most three of its own steps (the copy, the assignment, the end
    of the block) take it out again with the lock given back, whatever
    the environment answers; none of these steps can be refused. *)
Theorem video_gives_the_lock_back (r1 r2 r3 : response ndarray) (sys : System) :
  video_holds (video sys) = true ->
  exists k sys',
    (k <= 3)%nat
    /\ run (take k [Video r1; Video r2; Video r3]) sys = Some sys'
    /\ lock (shared sys') = false
    /\ video_holds (video sys') = false.
Proof.
  intros Hv. destruct (video sys) as [|f|f|f|c| | |e] eqn:Hpc; try discriminate.
  - (* at the copy *)
    destruct r1 as [a|e].
    + destruct (heap (shared sys) !! f) as [px|] eqn:Hf.
      * destruct (video_leaves_from_assign r2 r3 (length (heap (shared sys)))
                    (with_video (at_assign (length (heap (shared sys))))
                       (with_shared (set_heap (heap (shared sys) ++ [px]) (shared sys)) sys)))
          as (k & sys' & Hk & Hrun & Hl & Hv'); [reflexivity|].
        exists (S k), sys'. split; [lia|]. split; [|auto].
        change (take (S k) [Video (Returns a); Video r2; Video r3])
          with (Video (Returns a) :: take k [Video r2; Video r3]).
        change (run (Video (Returns a) :: take k [Video r2; Video r3]) sys)
          with (match video_step (Returns a) sys with
                | Some s1 => run (take k [Video r2; Video r3]) s1
                | None => None
                end).
        unfold video_step at 1. rewrite Hpc, Hf. exact Hrun.
      * exists 1%nat. eexists. split; [lia|]. split.
        -- simpl. unfold video_step. rewrite Hpc, Hf. reflexivity.
        -- apply video_raise_releases. now rewrite Hpc.
    + exists 1%nat. eexists. split; [lia|]. split.
      * simpl. unfold video_step. rewrite Hpc. reflexivity.
      * apply video_raise_releases. now rewrite Hpc.
  - (* at the assignment *)
    destruct (video_leaves_from_assign r1 r2 c sys Hpc) as (k & sys' & Hk & Hrun & H).
    exists k, sys'. split; [lia|]. split; [|exact H].
    replace (take k [Video r1; Video r2; Video r3]) with (take k [Video r1; Video r2]);
      [exact Hrun|].
    destruct k as [|[|[|k]]]; try reflexivity. lia.
  - (* at the end of the block *)
    destruct (video_leaves_from_release r1 sys Hpc) as (sys' & Hs & H).
    exists 1%nat, sys'. split; [lia|]. split; [|exact H].
    simpl. now rewrite Hs.
Qed.

Lemma video_gives_the_lock_back_witness :
  exists sys0,
    run (take 7 example_schedule) (start_system 2) = Some sys0
    /\ lock (shared sys0) = true
    /\ exists k sys',
         (k <= 3)%nat
         /\ run (take k [Video (Returns []); Video (Throws KeyboardInterrupt);
                         Video (Returns [])]) sys0 = Some sys'
         /\ lock (shared sys') = false
         /\ video_holds (video sys') = false.
Proof.
  destruct (run (take 7 example_schedule) (start_system 2)) as [sys0|] eqn:H;
    [|vm_compute in H; discriminate].
  vm_compute in H. injection H as <-.
  eexists. split; [reflexivity|]. split; [reflexivity|].
  apply (video_gives_the_lock_back (Returns []) (Throws KeyboardInterrupt) (Returns [])).
  reflexivity.
Defined.

Section CallerSection.

Lemma caller_leaves_from_exit (i : nat) (r : option Image) (sys : System) :
  readers sys !! i = Some (at_exit r) ->
  exists sys', reader_step i sys = Some sys'
               /\ lock (shared sys') = false
               /\ readers sys' !! i = Some (returned r)
               /\ output_frame (shared sys') = output_frame (shared sys).
Proof.
  intros Hi. unfold reader_step. rewrite Hi. eexists. split; [reflexivity|].
  simpl. rewrite list_lookup_insert_eq by (eapply lookup_lt_Some; eassumption). auto.
Qed.

Lemma caller_leaves_from_build (i : nat) (sys : System) :
  readers sys !! i = Some at_build ->
  exists sys' r, run [Reader i; Reader i] sys = Some sys'
                 /\ lock (shared sys') = false
                 /\ readers sys' !! i = Some (returned r)
                 /\ output_frame (shared sys') = output_frame (shared sys).
Proof.
  intros Hi. pose proof (lookup_lt_Some _ _ _ Hi) as Hlen.
  destruct (caller_leaves_from_exit i
              (Some (gr_Image (output_frame (shared sys)) "Camera"))
              (with_reader i (at_exit (Some (gr_Image (output_frame (shared sys)) "Camera")))
                 (with_shared
                    (add_stdout
                       "### Returning an image <class 'gradio.components.image.Image'>"
                       (shared sys)) sys)))
    as (sys' & Hs & Hl & Hr & Ho).
  { simpl. now rewrite list_lookup_insert_eq. }
  exists sys', (Some (gr_Image (output_frame (shared sys)) "Camera")).
  split; [|auto]. simpl. unfold reader_step at 1. rewrite Hi. now rewrite Hs.
Qed.

End CallerSection.

(** X10. Once a caller of [generate_image] is inside the [with lock:]
    block of line 41, at most three of its own steps take it to the
    [return] with the lock given back; none of these steps can be
    refused and none changes [output_frame]. *)
Theorem caller_gives_the_lock_back (i : nat) (pc : reader_pc) (sys : System) :
  readers sys !! i = Some pc -> reader_holds pc = true ->
  exists k sys' r,
    (k <= 3)%nat
    /\ run (replicate k (Reader i)) sys = Some sys'
    /\ lock (shared sys') = false
    /\ readers sys' !! i = Some (returned r)
    /\ output_frame (shared sys') = output_frame (shared sys).
Proof.
  intros Hi Hpc. pose proof (lookup_lt_Some _ _ _ Hi) as Hlen.
  destruct pc as [| | | |r|r]; try discriminate.
  - (* line 43 *)
    destruct (output_frame (shared sys)) as [l|] eqn:Ho.
    + destruct (caller_leaves_from_build i
                  (with_reader i at_build
                     (with_shared (add_stdout "### Have an output frame" (shared sys)) sys)))
        as (sys' & r & Hrun & Hl & Hr & Ho').
      { simpl. now rewrite list_lookup_insert_eq. }
      exists 3%nat, sys', r. split; [lia|]. split; [|simpl in Ho'; repeat split; congruence].
      change (replicate 3 (Reader i)) with (Reader i :: [Reader i; Reader i]).
      change (run (Reader i :: [Reader i; Reader i]) sys)
        with (match reader_step i sys with
              | Some s1 => run [Reader i; Reader i] s1
              | None => None
              end).
      unfold reader_step at 1. rewrite Hi, Ho. exact Hrun.
    + destruct (caller_leaves_from_exit i None (with_reader i (at_exit None) sys))
        as (sys' & Hs & Hl & Hr & Ho').
      { simpl. now rewrite list_lookup_insert_eq. }
      exists 2%nat, sys', None. split; [lia|]. split; [|simpl in Ho'; repeat split; congruence].
      simpl. unfold reader_step at 1. rewrite Hi, Ho. now rewrite Hs.
  - (* line 46 *)
    destruct (caller_leaves_from_build i sys Hi) as (sys' & r & Hrun & H).
    exists 2%nat, sys', r. split; [lia | auto].
  - (* the end of the block *)
    destruct (caller_leaves_from_exit i r sys Hi) as (sys' & Hs & H).
    exists 1%nat, sys', r. split; [lia|]. split; [|exact H].
    simpl. now rewrite Hs.
Qed.

Lemma caller_gives_the_lock_back_witness :
  exists sys0,
    run (take 3 example_schedule) (start_system 2) = Some sys0
    /\ readers sys0 !! 0%nat = Some at_test
    /\ exists k sys' r,
         (k <= 3)%nat
         /\ run (replicate k (Reader 0)) sys0 = Some sys'
         /\ lock (shared sys') = false
         /\ readers sys' !! 0%nat = Some (returned r)
         /\ output_frame (shared sys') = output_frame (shared sys0).
Proof.
  destruct (run (take 3 example_schedule) (start_system 2)) as [sys0|] eqn:H;
    [|vm_compute in H; discriminate].
  vm_compute in H. injection H as <-.
  eexists. split; [reflexivity|]. split; [reflexivity|].
  apply (caller_gives_the_lock_back 0 at_test); reflexivity.
Defined.

(** * The main thread and the video thread side by side *)

Section MainWith.

(** With a [sleep] and a [launch] that return and a video thread that is
    not followed further, [main_with] is [main]. *)
Lemma main_with_main (env : environment) (s : State) :
  main_with (Returns tt) (Returns tt) (video_processing env) no_progress s = main env s.
Proof.
  unfold main_with, main, sleeping, run_thread_while_sleeping, launching, no_progress,
    bind, external, print.
  simpl. destruct (video_processing env _) as [s' r]. simpl.
  destruct (thread_is_alive r); reflexivity.
Qed.


Lemma loop_failure_None (its : list iteration) :
  loop_failure its = None -> Forall (fun it => raises it = None) its.
Proof.
  induction its as [|it rest IH]; simpl; [constructor|].
  destruct (raises it) eqn:Hr; [discriminate|]. intros H. constructor; auto.
Qed.

End MainWith.

Section Signal.

(** A video thread whose calls all answer without raising is in the loop,
    has not called [stop] and has printed nothing since the set-up. *)
Lemma video_processing_in_the_loop (env : environment) (s : State) :
  setup_failure env = None -> loop_failure (frames env) = None -> lock s = false ->
  exists s',
    video_processing env s = (s', Pending)
    /\ lock s' = false
    /\ stdout s' = stdout (set_up s)
    /\ exists cs, calls s' = calls s ++ cs /\ stop ∉ cs.
Proof.
  intros Hs Hf Hl.
  rewrite video_processing_set_up by (apply setup_failure_None, Hs).
  unfold try_except_KeyboardInterrupt.
  destruct (while_1_passes (frames env) (set_up s) Hl (loop_failure_None _ Hf))
    as (Hw & Hl' & He).
  rewrite Hw. eexists. split; [reflexivity|]. split; [exact Hl'|].
  split; [apply He|].
  destruct (extends_set_up s _ He) as (_ & _ & cs & Hc & _ & Hn). eauto.
Qed.

Lemma video_continues_in_the_loop (env : environment) (later : list iteration) (s : State) :
  loop_failure later = None -> lock s = false ->
  exists s',
    video_continues env later s = (s', Pending)
    /\ stdout s' = stdout s
    /\ exists cs, calls s' = calls s ++ cs /\ stop ∉ cs.
Proof.
  intros Hf Hl. unfold video_continues, try_except_KeyboardInterrupt.
  destruct (while_1_passes later s Hl (loop_failure_None _ Hf)) as (Hw & _ & He).
  rewrite Hw. eexists. split; [reflexivity|].
  destruct He as (_ & (cs & Hc & Hn) & Ho & _). split; [exact Ho|].
  exists cs. split; [exact Hc | apply loop_call_not_stop, Hn].
Qed.

End Signal.

(** C7 on the program.  The video thread is in its loop and every call it
    makes answers without raising; SIGINT arrives, so [KeyboardInterrupt]
    is raised in the main thread, in [sleep(1)] or in [launch].  The
    program ends with [KeyboardInterrupt], and [camera.stop()] has not
    been called, nor has the handler of lines 81-85 printed its message:
    the handler is never entered.  However [sleep] and [launch] end, no
    call of [stop] results from them. *)
Theorem signal_does_not_reach_the_handler
    (env : environment) (later : list iteration) (r_sleep r_launch : response unit) :
  setup_failure env = None -> loop_failure (frames env) = None ->
  loop_failure later = None ->
  exists s' r,
    main_with r_sleep r_launch (video_processing env) (video_continues env later)
      initial_state = (s', r)
    /\ (stop ∉ calls s')
    /\ ("Capture stopped." ∉ stdout s')
    /\ (r_sleep = Throws KeyboardInterrupt
        \/ (r_sleep = Returns tt /\ r_launch = Throws KeyboardInterrupt) ->
        r = Raise KeyboardInterrupt).
Proof.
  intros Hs Hf Hlater.
  set (s0 := add_call (sleep 1) (add_call Thread_start initial_state)).
  destruct (video_processing_in_the_loop env s0 Hs Hf eq_refl)
    as (s1 & Hv & Hl1 & Ho1 & cs1 & Hc1 & Hn1).
  assert (Hstop1 : stop ∉ calls s1).
  { rewrite Hc1. simpl. rewrite !not_elem_of_cons. repeat split; try discriminate.
    exact Hn1. }
  assert (Hout1 : "Capture stopped." ∉ stdout s1).
  { rewrite Ho1. simpl. rewrite !not_elem_of_cons. repeat split; try discriminate.
    apply not_elem_of_nil. }
  unfold main_with, sleeping, launching, bind, external, print. simpl.
  fold s0. rewrite Hv. simpl.
  destruct r_sleep as [[]|e].
  - simpl.
    set (s2 := add_call (launch "0.0.0.0")
                 (add_stdout "Starting web API (may take a while)."
                    (add_call is_alive s1))).
    destruct (video_continues_in_the_loop env later s2 Hlater Hl1)
      as (s3 & Hc & Ho3 & cs3 & Hc3 & Hn3).
    rewrite Hc. eexists s3, _. split; [reflexivity|]. split; [|split].
    + rewrite Hc3. simpl. rewrite !elem_of_app, !elem_of_cons.
      intros [[[H|[H|H]]|[H|H]]|H]; try discriminate; try (inversion H; fail); auto.
    + rewrite Ho3. simpl. rewrite elem_of_app, elem_of_cons.
      intros [H|[H|H]]; [auto | discriminate | inversion H].
    + intros [H|[_ ->]]; [discriminate | reflexivity].
  - eexists s1, _. split; [reflexivity|]. split; [exact Hstop1|].
    split; [exact Hout1|]. intros [[= ->]|[H _]]; [reflexivity | discriminate].
Qed.

Lemma signal_does_not_reach_the_handler_witness :
  exists s' r,
    main_with (Returns tt) (Throws KeyboardInterrupt)
      (video_processing (camera_with [pass_1]))
      (video_continues (camera_with [pass_1]) [pass_2]) initial_state
      = (s', r)
    /\ (stop ∉ calls s')
    /\ ("Capture stopped." ∉ stdout s')
    /\ (Returns tt = @Throws unit KeyboardInterrupt
        \/ (Returns tt = Returns tt
            /\ @Throws unit KeyboardInterrupt = Throws KeyboardInterrupt) ->
        r = Raise KeyboardInterrupt).
Proof.
  apply (signal_does_not_reach_the_handler (camera_with [pass_1]) [pass_2]
           (Returns tt) (Throws KeyboardInterrupt)); reflexivity.
Defined.

(** The same run, call by call: the camera is started and two frames are
    captured, one before and one after the launch; the signal ends the
    program, and no call of [stop] follows. *)
Lemma sigint_while_serving :
  let run := main_with (Returns tt) (Throws KeyboardInterrupt)
               (video_processing (camera_with [pass_1]))
               (video_continues (camera_with [pass_1]) [pass_2]) initial_state in
  snd run = Raise KeyboardInterrupt
  /\ calls (fst run) =
       [Thread_start; sleep 1; Picamera2;
        create_video_configuration (1920, 1080) (640, 480) (33333, 33333);
        align_configuration; configure; start; createBackgroundSubtractorMOG2;
        capture_array; background_subtract_apply 0;
        is_alive; launch "0.0.0.0";
        capture_array; background_subtract_apply 3]
  /\ slot_content (fst run) = Some frame_2.
Proof. vm_compute. auto. Qed.

(** * The verdict of the start-up *)

Section Verdict.






End Verdict.


(** The camera has not answered the call [Picamera2()] when the grace
    interval is over: [main] launches, and the only call made on the
    camera is that one. *)
Lemma launch_before_the_camera_is_open :
  let run := main_with (Returns tt) (Returns tt)
               (video_processing_so_far (Some in_Picamera2) (camera_with [pass_1]))
               no_progress initial_state in
  snd run = Ok tt
  /\ calls (fst run) = [Thread_start; sleep 1; Picamera2; is_alive; launch "0.0.0.0"].
Proof. vm_compute. auto. Qed.
